(** * Access-time model of a zoned rotating disk (src/hdd.cpp)

    A shallow embedding of class [HDD]: the constructor, [decode], [seek_time],
    [wait_time], [read_time], [write_time], [read] and [write].

    Conventions of the embedding.
    - [uint32] and [uint64] values are integers of [Z]; every place where the
      C++ arithmetic wraps carries an explicit [u32] or [u64].
    - [double] is the kernel's binary64 type [float]: additions, products and
      quotients round exactly as the machine's do, so the integer decisions
      the program takes from floating-point values ([floor] of a sector
      count, the byte limit of [decode]) are the program's own.
    - [(uint32) floor (x)] of a value outside the range of [uint32] is
      undefined in C++; [floor_u32] answers what the conversion through a
      64-bit register gives on x86-64: the value modulo 2^32 when it fits a
      signed 64-bit integer, and 0 otherwise.
    - Division of an integer by zero is undefined as well; the program stops
      there, as it does on the machine, and the routine answers [DivByZero].
    - A [while] loop takes a bound on its number of passes ([fuel]) and
      answers [OutOfFuel] when the bound is reached; a [for] loop with a
      counter runs for its exact count.
    - In [read] and [write] the three calls of the sum are evaluated in the
      order they are written: [seek_time] reads the head position before
      [read_time] moves it.
    - Diagnostic printing ([cout]) is left out, except the line the
      constructor prints for an inconsistent geometry. *)

From Stdlib Require Import ZArith Lia List Bool String Floats Uint63.
Import ListNotations.

#[local] Set Warnings "-inexact-float".
#[local] Open Scope Z_scope.

(** ** Machine numbers *)

Definition u32 (z : Z) : Z := z mod 4294967296.
Definition u64 (z : Z) : Z := z mod 18446744073709551616.

(** [(double) z] for an unsigned integer below 2^63 (exact below 2^53). *)
Definition dbl (z : Z) : float := of_uint63 (Uint63.of_Z z).

(** The integer part of a binary64 value, rounded towards minus infinity. *)
Definition floorZ (x : float) : Z :=
  match Prim2SF x with
  | S754_finite s m e =>
      let v := if s then Z.neg m else Z.pos m in
      if 0 <=? e then v * 2 ^ e else v / 2 ^ (- e)
  | _ => 0
  end.

(** The integer part of a binary64 value, rounded towards zero. *)
Definition truncZ (x : float) : Z :=
  match Prim2SF x with
  | S754_finite s m e =>
      let v := if s then Z.neg m else Z.pos m in
      if 0 <=? e then v * 2 ^ e else Z.quot v (2 ^ (- e))
  | _ => 0
  end.

(** [(uint32) floor (x)]: the low 32 bits of the 64-bit conversion, which
    gives the bit pattern 2^63 to a value that does not fit. *)
Definition floor_u32 (x : float) : Z :=
  let z := floorZ x in
  if (- 9223372036854775808 <=? z) && (z <? 9223372036854775808)
  then u32 z else 0.

(** ** Results of bounded loops and of integer divisions *)

Inductive run (A : Type) : Type :=
| Done (a : A)
| OutOfFuel
| DivByZero.
Arguments Done {A} a.
Arguments OutOfFuel {A}.
Arguments DivByZero {A}.

Definition bind {A B : Type} (r : run A) (k : A -> run B) : run B :=
  match r with
  | Done a => k a
  | OutOfFuel => OutOfFuel
  | DivByZero => DivByZero
  end.

Notation "x <- r ;; k" := (bind r (fun x => k))
  (at level 61, r at next level, right associativity).
Notation "' p <- r ;; k" := (bind r (fun x => let 'p := x in k))
  (at level 61, p pattern, r at next level, right associativity).

(** ** Data *)

(** Modelled from the spec: hdd.h is not among the sources.  [HDD_Position]
    has the three fields [decode] writes (a surface, a track and a
    sector-slot index, all assigned from [uint32] variables), and the fields
    of [HDD] are those the member functions of hdd.cpp read and write, the
    integer ones [uint32], the others [double] or [bool]. *)
Record HDD_Position : Type := {
  surface : Z;
  track : Z;
  sector : Z
}.

Record HDD : Type := {
  _surfaces : Z;
  _rpm : Z;
  _sector_size : Z;
  _seek_overhead : float;
  _seek_per_track : float;
  _verbose : bool;
  _sectors_innermost_track : Z;
  _sectors_diff : float;
  _capacity : float;
  _head_pos : Z;
  _target_pos : HDD_Position
}.

Definition set_head_pos (h : HDD) (t : Z) : HDD :=
  {| _surfaces := _surfaces h; _rpm := _rpm h; _sector_size := _sector_size h;
     _seek_overhead := _seek_overhead h; _seek_per_track := _seek_per_track h;
     _verbose := _verbose h;
     _sectors_innermost_track := _sectors_innermost_track h;
     _sectors_diff := _sectors_diff h; _capacity := _capacity h;
     _head_pos := t; _target_pos := _target_pos h |}.

Definition set_target_pos (h : HDD) (p : HDD_Position) : HDD :=
  {| _surfaces := _surfaces h; _rpm := _rpm h; _sector_size := _sector_size h;
     _seek_overhead := _seek_overhead h; _seek_per_track := _seek_per_track h;
     _verbose := _verbose h;
     _sectors_innermost_track := _sectors_innermost_track h;
     _sectors_diff := _sectors_diff h; _capacity := _capacity h;
     _head_pos := _head_pos h; _target_pos := p |}.

(** ** Geometry *)

(** The expression every routine recomputes:
    [(uint32) floor ((double) _sectors_innermost_track + _sectors_diff * t)]. *)
Definition sectors_at (inner : Z) (diff : float) (t : Z) : Z :=
  floor_u32 (dbl inner + diff * dbl t)%float.

Definition track_sector (h : HDD) (t : Z) : Z :=
  sectors_at (_sectors_innermost_track h) (_sectors_diff h) t.

(** The constructor's loop
    [for (int i = 0; i < tracks_per_surface; i++) total_sector += ...],
    [n] passes still to run ([i] is an [int]: the count is the source's up
    to 2^31 tracks). *)
Fixpoint count_sectors (n : nat) (inner : Z) (diff : float) (i total_sector : Z)
  : Z :=
  match n with
  | O => total_sector
  | S n' =>
      count_sectors n' inner diff (i + 1)
        (u32 (total_sector + sectors_at inner diff i))
  end.

(** The local [total_sector] of the constructor once multiplied by the
    number of surfaces: the device's capacity in sectors. *)
Definition total_sectors (surfaces tracks_per_surface inner : Z) (diff : float)
  : Z :=
  u32 (count_sectors (Z.to_nat tracks_per_surface) inner diff 0 0 * surfaces).

Definition geometry_error : string :=
  "Error: outermost track should contain more sectors than innermost".

(** [HDD::HDD]: the device and the lines written to [cout] by the validity
    check.  The constructor leaves [_target_pos] unset; it starts here at the
    first position, and [read] and [write] store a decoded position in it
    before they use it. *)
Definition HDD_new (surfaces tracks_per_surface
                    sectors_innermost_track sectors_outermost_track
                    rpm sector_size : Z)
                   (seek_overhead seek_per_track : float) (verbose : bool)
  : HDD * list string :=
  let out :=
    if sectors_outermost_track <=? sectors_innermost_track
    then [geometry_error] else [] in
  let sectors_diff :=
    (dbl (u32 (sectors_outermost_track - sectors_innermost_track))
     / dbl (u32 (tracks_per_surface - 1)))%float in
  let total_sector :=
    total_sectors surfaces tracks_per_surface sectors_innermost_track
      sectors_diff in
  let capacity := (dbl total_sector / 1000000000 * dbl sector_size)%float in
  ({| _surfaces := surfaces; _rpm := rpm; _sector_size := sector_size;
      _seek_overhead := seek_overhead; _seek_per_track := seek_per_track;
      _verbose := verbose;
      _sectors_innermost_track := sectors_innermost_track;
      _sectors_diff := sectors_diff; _capacity := capacity;
      _head_pos := 0;
      _target_pos := {| surface := 0; track := 0; sector := 0 |} |},
   out).

(** ** Address decoding *)

(** The largest address [decode] accepts:
    [(uint64) (_capacity * 1000000000.0)]. *)
Definition byte_limit (h : HDD) : Z :=
  u64 (truncZ (_capacity h * 1000000000)%float).

(** First loop of [decode]: scan the tracks, adding up their sectors, until
    the running total passes the block.  Answers the track and the total. *)
Fixpoint decode_track (fuel : nat) (h : HDD)
                      (block_index track_index total_sector : Z)
  : run (Z * Z) :=
  match fuel with
  | O => OutOfFuel
  | S fuel' =>
      let track_sector := track_sector h track_index in
      let total_sector := u32 (total_sector + track_sector * _surfaces h) in
      if u32 (total_sector - 1) >=? block_index
      then Done (track_index, total_sector)
      else decode_track fuel' h block_index (u32 (track_index + 1)) total_sector
  end.

(** The [for] loop over the surfaces of one sector-slot; [n] passes at most
    remain.  Answers [surface_index], [total_sector] and [end_flag]. *)
Fixpoint decode_surfaces (n : nat) (surfaces block_index : Z)
                         (surface_index total_sector : Z) (end_flag : bool)
  : Z * Z * bool :=
  match n with
  | O => (surface_index, total_sector, end_flag)
  | S n' =>
      if surface_index <? surfaces then
        if total_sector >=? block_index
        then (surface_index, total_sector, false)
        else decode_surfaces n' surfaces block_index
               (surface_index + 1) (u32 (total_sector + 1)) end_flag
      else (surface_index, total_sector, end_flag)
  end.

(** Second loop of [decode]: walk the sector-slots of the track. *)
Fixpoint decode_slots (fuel : nat) (surfaces track_sector block_index : Z)
                      (surface_index sector_index total_sector : Z)
                      (end_flag : bool)
  : run (Z * Z) :=
  match fuel with
  | O => OutOfFuel
  | S fuel' =>
      if (sector_index <? track_sector) && (total_sector <? block_index) then
        let '(surface_index, total_sector, end_flag) :=
          decode_surfaces (Z.to_nat surfaces) surfaces block_index
            0 total_sector end_flag in
        if end_flag
        then
          if surfaces =? 0 then DivByZero
          else decode_slots fuel' surfaces track_sector block_index
                 (surface_index mod surfaces) (u32 (sector_index + 1))
                 total_sector end_flag
        else decode_slots fuel' surfaces track_sector block_index
               surface_index sector_index total_sector end_flag
      else Done (surface_index, sector_index)
  end.

(** The body of [decode] after the validity check. *)
Definition decode_block (fuel : nat) (h : HDD) (block_index : Z)
  : run HDD_Position :=
  '(track_index, total_sector) <- decode_track fuel h block_index 0 0 ;;
  let track_sector := track_sector h track_index in
  let total_sector := u32 (total_sector - track_sector * _surfaces h) in
  '(surface_index, sector_index) <-
     decode_slots fuel (_surfaces h) track_sector block_index
       0 0 total_sector true ;;
  Done {| surface := surface_index; track := track_index;
          sector := sector_index |}.

(** [HDD::decode]: [None] for [return false] (nothing is written through
    [pos]), [Some p] for [return true] with [*pos = p].  An address that
    passes the check is divided by [_sector_size]. *)
Definition decode (fuel : nat) (h : HDD) (address : Z)
  : run (option HDD_Position) :=
  if (address <? 0) || (address >? byte_limit h) then Done None
  else if _sector_size h =? 0 then DivByZero
  else
    p <- decode_block fuel h (u32 (address / _sector_size h)) ;;
    Done (Some p).

(** ** Access times *)

(** [HDD::seek_time]; [abs] is the [double] overload of <cmath>. *)
Definition seek_time (h : HDD) (from_track to_track : Z) : float :=
  if from_track =? to_track then 0%float
  else (abs (dbl to_track - dbl from_track) * _seek_per_track h
        + _seek_overhead h)%float.

(** [HDD::wait_time] *)
Definition wait_time (h : HDD) : float :=
  (1 / 2 * (1 / dbl (_rpm h)) * 60)%float.

(** The time [read_time] adds for one sector of a track of [track_sector]
    sectors. *)
Definition sector_time (h : HDD) (track_sector : Z) : float :=
  (1 / dbl (_rpm h) * (1 / dbl track_sector) * 60)%float.

(** The sectors left on the track from a position on:
    [((track_sector - (sector + 1)) * _surfaces) + (_surfaces - surface)]. *)
Definition max_access (h : HDD) (p : HDD_Position) : Z :=
  u32 ((track_sector h (track p) - (sector p + 1)) * _surfaces h
       + (_surfaces h - surface p)).

(** The [for] loop of [read_time] on one track,
    [for (read = 0; sectors > 0 && read < max_access; read++)];
    [n] passes at most remain.  Answers [sectors] and [time]. *)
Fixpoint read_sectors (n : nat) (cost : float) (max_access : Z)
                      (read sectors : Z) (time : float)
  : Z * float :=
  match n with
  | O => (sectors, time)
  | S n' =>
      if (sectors >? 0) && (read <? max_access)
      then read_sectors n' cost max_access (read + 1) (sectors - 1)
             (time + cost)%float
      else (sectors, time)
  end.

(** The [while (1)] loop of [read_time].  Answers the time and the track
    reached.  The [for] loop inside makes [min sectors max_access] passes,
    the bound it is given here ([read_sectors_spec] below: a larger bound
    changes nothing). *)
Fixpoint read_time_loop (fuel : nat) (h : HDD) (curr_pos : HDD_Position)
                        (sectors : Z) (time : float)
  : run (float * Z) :=
  match fuel with
  | O => OutOfFuel
  | S fuel' =>
      let track_sector := track_sector h (track curr_pos) in
      let max_access := max_access h curr_pos in
      let '(sectors, time) :=
        read_sectors (Z.to_nat (Z.min sectors max_access))
          (sector_time h track_sector) max_access 0 sectors time in
      if sectors <=? 0 then Done (time, track curr_pos)
      else
        let curr_pos :=
          {| surface := 0; track := u32 (track curr_pos + 1); sector := 0 |} in
        read_time_loop fuel' h curr_pos sectors
          (time + (seek_time h (track curr_pos) (u32 (track curr_pos + 1))
                   + wait_time h))%float
  end.

(** [HDD::read_time]: starts at [_target_pos], leaves the head on the track
    reached. *)
Definition read_time (fuel : nat) (h : HDD) (sectors : Z) : run (float * HDD) :=
  '(time, t) <- read_time_loop fuel h (_target_pos h) sectors 0 ;;
  Done (time, set_head_pos h t).

(** [HDD::write_time]: the same text as [read_time]; no function calls it. *)
Definition write_time (fuel : nat) (h : HDD) (sectors : Z) : run (float * HDD) :=
  '(time, t) <- read_time_loop fuel h (_target_pos h) sectors 0 ;;
  Done (time, set_head_pos h t).

(** [HDD::read]: [size / _sector_size] is computed first, before the address
    is decoded. *)
Definition read (fuel : nat) (h : HDD) (ts : float) (address size : Z)
  : run (float * HDD) :=
  if _sector_size h =? 0 then DivByZero else
  let sectors := u32 (size / _sector_size h) in
  d <- decode fuel h address ;;
  match d with
  | None => Done (ts, h)
  | Some p =>
      let h := set_target_pos h p in
      let seek := seek_time h (_head_pos h) (track (_target_pos h)) in
      let wait := wait_time h in
      '(time, h) <- read_time fuel h sectors ;;
      Done ((ts + (seek + wait + time))%float, h)
  end.

(** [HDD::write]: calls [read_time], as the source does. *)
Definition write (fuel : nat) (h : HDD) (ts : float) (address size : Z)
  : run (float * HDD) :=
  if _sector_size h =? 0 then DivByZero else
  let sectors := u32 (size / _sector_size h) in
  d <- decode fuel h address ;;
  match d with
  | None => Done (ts, h)
  | Some p =>
      let h := set_target_pos h p in
      let seek := seek_time h (_head_pos h) (track (_target_pos h)) in
      let wait := wait_time h in
      '(time, h) <- read_time fuel h sectors ;;
      Done ((ts + (seek + wait + time))%float, h)
  end.

(** ** Devices used in the examples *)

(** The scenario of the specification's section 8: one surface, two tracks
    of 10 and 20 sectors, 6000 rpm, sectors of 512 bytes, free seeks. *)
Definition hdd8 : HDD := fst (HDD_new 1 2 10 20 6000 512 0 0 false).

(** The same with a third track between the two: 10, 15 and 20 sectors. *)
Definition hdd3 : HDD := fst (HDD_new 1 3 10 20 6000 512 0 0 false).


(** 65536 surfaces, two tracks of 65536 and 131072 sectors: 3 * 2^32 sectors
    in all. *)
Definition hdd_wide : HDD :=
  fst (HDD_new 65536 2 65536 131072 6000 512 0 0 false).

(** 65536 surfaces, two tracks of 65536 sectors each. *)
Definition hdd_wide_flat : HDD :=
  fst (HDD_new 65536 2 65536 65536 6000 512 0 0 false).

(** A number of passes for the walks on [hdd_wide]; on its first 4096
    tracks the sectors of a track are counted without overflow. *)
Definition walk_bound : nat := Z.to_nat 4096.

(** One surface, two tracks of 2^31 and 2^32 - 1 sectors of one byte. *)
Definition hdd_long : HDD :=
  fst (HDD_new 1 2 2147483648 4294967295 6000 1 0 0 false).

(** One surface, two tracks of 13 and 20 sectors. *)
Definition hdd13 : HDD := fst (HDD_new 1 2 13 20 6000 512 0 0 false).

(** One surface, twelve tracks from 1 sector to 16. *)
Definition hdd12 : HDD := fst (HDD_new 1 12 1 16 6000 512 0 0 false).

(** Three tracks, a seek overhead of 2 ms and 0.1 ms per track. *)
Definition hdd_seek : HDD :=
  fst (HDD_new 1 3 10 20 6000 512 0.002 0.0001 false).

(** ** Notions used to state the properties *)

(** Modelled from the spec (section 3): the sector count of track [t] in
    exact arithmetic, floor (inner + (outer - inner) / (tracks - 1) * t). *)
Definition spec_sectors_on_track (inner outer tracks t : Z) : Z :=
  inner + (outer - inner) * t / (tracks - 1).

(** [n] additions of [cost] to [time], as the loop over one track makes
    them. *)
Fixpoint charge (n : nat) (cost time : float) : float :=
  match n with
  | O => time
  | S n' => charge n' cost (time + cost)%float
  end.

(** The position [read_time] moves to when a track is used up. *)
Definition next_track (p : HDD_Position) : HDD_Position :=
  {| surface := 0; track := u32 (track p + 1); sector := 0 |}.

(** The first position of track [t]. *)
Definition track_start (t : Z) : HDD_Position :=
  {| surface := 0; track := t; sector := 0 |}.

(** What [read_time] adds when it moves on to the track after [p]'s. *)
Definition crossing_time (h : HDD) (p : HDD_Position) : float :=
  (seek_time h (track (next_track p)) (u32 (track (next_track p) + 1))
   + wait_time h)%float.

(** The sectors one surface holds on the tracks [0 .. n-1]. *)
Fixpoint sum_sectors (inner : Z) (diff : float) (n : nat) : Z :=
  match n with
  | O => 0
  | S n' => sum_sectors inner diff n' + sectors_at inner diff (Z.of_nat n')
  end.

(** The blocks held by the tracks [0 .. n-1]. *)
Fixpoint blocks_before (h : HDD) (n : nat) : Z :=
  match n with
  | O => 0
  | S n' => blocks_before h n' + track_sector h (Z.of_nat n') * _surfaces h
  end.

(** The rank of a position in the order track first, then sector-slot, then
    surface. *)
Definition block_of (h : HDD) (p : HDD_Position) : Z :=
  blocks_before h (Z.to_nat (track p)) + sector p * _surfaces h + surface p.

(** A position of a device of [tracks] tracks. *)
Definition valid_position (h : HDD) (tracks : Z) (p : HDD_Position) : Prop :=
  0 <= surface p < _surfaces h /\
  0 <= track p < tracks /\
  0 <= sector p < track_sector h (track p).

(** The order of the layout: track first, then sector-slot, then surface. *)
Definition layout_lt (p q : HDD_Position) : Prop :=
  track p < track q \/
  (track p = track q /\
   (sector p < sector q \/ (sector p = sector q /\ surface p < surface q))).

(** A binary64 value that is an infinity or not a number. *)
Definition not_finite (x : float) : bool :=
  match Prim2SF x with
  | S754_infinity _ | S754_nan => true
  | _ => false
  end.

(** ** Notions used to reason on binary64 rounding *)

(** The record [shr] reaches after [k] shifts of [N]: the quotient by 2^k,
    the bit shifted out last, and whether a lower bit was set. *)
Definition shr_state (N k : Z) : shr_record :=
  {| shr_m := N / 2 ^ k;
     shr_r := 2 ^ k <=? 2 * (N mod 2 ^ k);
     shr_s := negb ((N mod 2 ^ k =? 0) || (2 * (N mod 2 ^ k) =? 2 ^ k)) |}.

(** [N / 2^k] rounded to the nearest integer, ties to the even one. *)
Definition rne (N k : Z) : Z :=
  let q := N / 2 ^ k in
  let r := N mod 2 ^ k in
  if 2 * r <? 2 ^ k then q
  else if 2 * r =? 2 ^ k then (if Z.even q then q else q + 1)
  else q + 1.

(** The exponent binary64 gives to [m * 2^e], and its mantissa there. *)
Definition rnd_exp (m : positive) (e : Z) : Z :=
  fexp prec emax (Z.pos (digits2_pos m) + e).

Definition rnd_man (m : positive) (e : Z) : Z :=
  rne (Z.pos m * 2 ^ (e - Z.min e (rnd_exp m e)))
      (rnd_exp m e - Z.min e (rnd_exp m e)).

(** The last step of [binary_round_aux]: a rounded mantissa is normalised
    once more and checked for overflow. *)
Definition pack (s : bool) (q E : Z) : spec_float :=
  let '(mrs, e) := shr_fexp prec emax q E loc_Exact in
  match shr_m mrs with
  | Z0 => S754_zero s
  | Zpos m => if e <=? emax - prec then S754_finite s m e else S754_infinity s
  | Zneg _ => S754_nan
  end.

(** The value of a binary64 number in units of 2^-1074, the smallest
    positive one; the infinities are given the first power of two no finite
    number reaches. *)
Definition key_top : Z := 2 ^ 2098.

Definition key (x : spec_float) : Z :=
  match x with
  | S754_zero _ | S754_nan => 0
  | S754_infinity s => if s then - key_top else key_top
  | S754_finite s m e =>
      if s then - (Z.pos m * 2 ^ (e + 1074)) else Z.pos m * 2 ^ (e + 1074)
  end.

(** The key of [pack false q E]. *)
Definition val_key (q E : Z) : Z :=
  if q =? 0 then 0
  else if (if q =? 2 ^ 53 then E + 1 else E) <=? 971 then q * 2 ^ (E + 1074)
  else key_top.

(** ** Machine arithmetic *)

Ltac pair_eq :=
  repeat (apply pair_equal_spec; split); try reflexivity; try lia.

Lemma u32_range (z : Z) : 0 <= u32 z < 4294967296.
Proof. unfold u32. apply Z.mod_pos_bound. lia. Qed.

Lemma u32_small (z : Z) : 0 <= z < 4294967296 -> u32 z = z.
Proof. intros H. unfold u32. apply Z.mod_small. exact H. Qed.

Lemma u32_plus_l (a b : Z) : u32 (u32 a + b) = u32 (a + b).
Proof. unfold u32. apply Zplus_mod_idemp_l. Qed.

Lemma floor_u32_range (x : float) : 0 <= floor_u32 x < 4294967296.
Proof.
  unfold floor_u32.
  destruct ((_ <=? _) && (_ <? _)); [apply u32_range|lia].
Qed.

Lemma track_sector_range (h : HDD) (t : Z) : 0 <= track_sector h t < 4294967296.
Proof. unfold track_sector, sectors_at. apply floor_u32_range. Qed.

Lemma max_access_range (h : HDD) (p : HDD_Position) :
  0 <= max_access h p < 4294967296.
Proof. unfold max_access. apply u32_range. Qed.

(** On a position of a track whose sectors can be counted in 32 bits,
    [max_access] is the number of positions from [p] to the end of the
    track. *)
Lemma max_access_remaining (h : HDD) (p : HDD_Position) :
  0 <= surface p < _surfaces h ->
  0 <= sector p < track_sector h (track p) ->
  track_sector h (track p) * _surfaces h < 4294967296 ->
  max_access h p =
    track_sector h (track p) * _surfaces h
    - (sector p * _surfaces h + surface p)
  /\ 1 <= max_access h p.
Proof.
  intros Hs Hk Hfit. unfold max_access.
  rewrite u32_small by nia. split; nia.
Qed.

Lemma max_access_track_start (h : HDD) (t : Z) :
  1 <= _surfaces h -> 1 <= track_sector h t ->
  track_sector h t * _surfaces h < 4294967296 ->
  max_access h (track_start t) = track_sector h t * _surfaces h.
Proof.
  intros HS Hts Hfit.
  destruct (max_access_remaining h (track_start t)) as [E _]; simpl; try lia.
  rewrite E. simpl. lia.
Qed.

(** ** The loop over one track *)

Lemma read_sectors_spec (cost : float) (max_access : Z) :
  forall (n : nat) (read sectors : Z) (time : float),
    let k := Z.to_nat (Z.min sectors (max_access - read)) in
    (k <= n)%nat ->
    read_sectors n cost max_access read sectors time
    = (sectors - Z.of_nat k, charge k cost time).
Proof.
  induction n as [|n IH]; intros read sectors time k Hk.
  - assert (k = O) as -> by lia. simpl. f_equal. lia.
  - simpl.
    destruct (sectors >? 0) eqn:E1; destruct (read <? max_access) eqn:E2;
      simpl;
      try (assert (k = O) as -> by (subst k; lia); simpl; f_equal; lia).
    rewrite IH by (subst k; lia).
    assert (k = S (Z.to_nat (Z.min (sectors - 1) (max_access - (read + 1)))))
      as -> by (subst k; lia).
    simpl. f_equal. lia.
Qed.

Lemma read_time_loop_last (fuel : nat) (h : HDD) (p : HDD_Position)
      (sectors : Z) (time : float) :
  0 <= sectors <= max_access h p ->
  read_time_loop (S fuel) h p sectors time
  = Done (charge (Z.to_nat sectors)
            (sector_time h (track_sector h (track p))) time,
          track p).
Proof.
  intros H. cbn [read_time_loop].
  rewrite read_sectors_spec by lia.
  replace (Z.min sectors (max_access h p - 0)) with sectors by lia.
  replace (Z.min sectors (max_access h p)) with sectors by lia.
  rewrite Z2Nat.id by lia.
  replace (sectors - sectors <=? 0) with true by (symmetry; apply Z.leb_le; lia).
  reflexivity.
Qed.

Lemma read_time_loop_cross (fuel : nat) (h : HDD) (p : HDD_Position)
      (sectors : Z) (time : float) :
  max_access h p < sectors ->
  read_time_loop (S fuel) h p sectors time
  = read_time_loop fuel h (next_track p) (sectors - max_access h p)
      (charge (Z.to_nat (max_access h p))
         (sector_time h (track_sector h (track p))) time
       + crossing_time h p)%float.
Proof.
  intros H. pose proof (max_access_range h p) as R. cbn [read_time_loop].
  rewrite read_sectors_spec by lia.
  replace (Z.min sectors (max_access h p - 0)) with (max_access h p) by lia.
  rewrite Z2Nat.id by lia.
  replace (sectors - max_access h p <=? 0) with false
    by (symmetry; apply Z.leb_gt; lia).
  reflexivity.
Qed.

(** The walk only reads the geometry: the position stored in the device
    does not matter to it. *)
Lemma read_time_loop_set_target (q : HDD_Position) (h : HDD) :
  forall (fuel : nat) (p : HDD_Position) (sectors : Z) (time : float),
    read_time_loop fuel (set_target_pos h q) p sectors time
    = read_time_loop fuel h p sectors time.
Proof.
  induction fuel as [|fuel IH]; intros p sectors time; [reflexivity|].
  cbn [read_time_loop].
  change (track_sector (set_target_pos h q)) with (track_sector h).
  change (max_access (set_target_pos h q)) with (max_access h).
  change (sector_time (set_target_pos h q)) with (sector_time h).
  change (seek_time (set_target_pos h q)) with (seek_time h).
  change (wait_time (set_target_pos h q)) with (wait_time h).
  destruct (read_sectors _ _ _ _ _ _) as [s t].
  destruct (s <=? 0); [reflexivity|]. apply IH.
Qed.

(** The walk ends when every track it reaches has room for one sector at
    least: each pass of the loop then uses up a sector or more. *)
Lemma read_time_loop_returns (h : HDD) :
  forall (fuel : nat) (p : HDD_Position) (sectors : Z) (time : float),
    0 <= sectors < Z.of_nat fuel ->
    1 <= max_access h p ->
    (forall i, 1 <= i <= sectors ->
               1 <= max_access h (track_start (u32 (track p + i)))) ->
    exists r, read_time_loop fuel h p sectors time = Done r.
Proof.
  induction fuel as [|fuel IH]; intros p sectors time Hs Hp Hq; [lia|].
  destruct (Z_le_gt_dec sectors (max_access h p)) as [Hle|Hgt].
  - rewrite read_time_loop_last by lia. eauto.
  - rewrite read_time_loop_cross by lia.
    apply IH.
    + lia.
    + apply (Hq 1). lia.
    + intros i Hi. unfold next_track; cbn [track].
      rewrite u32_plus_l.
      replace (track p + 1 + i) with (track p + (i + 1)) by lia.
      apply (Hq (i + 1)). lia.
Qed.

(** ** A division that is reached has a divisor *)

Lemma sector_size_eqb (fuel : nat) (h : HDD) (address : Z) (p : HDD_Position) :
  decode fuel h address = Done (Some p) -> (_sector_size h =? 0) = false.
Proof.
  unfold decode.
  destruct ((address <? 0) || (address >? byte_limit h)); [discriminate|].
  destruct (_sector_size h =? 0); [discriminate|reflexivity].
Qed.

Lemma decode_divides (fuel : nat) (h : HDD) (address : Z) :
  0 <= address <= byte_limit h -> _sector_size h = 0 ->
  decode fuel h address = DivByZero.
Proof.
  intros Ha Hz. unfold decode.
  replace (address <? 0) with false by (symmetry; apply Z.ltb_ge; lia).
  replace (address >? byte_limit h) with false
    by (symmetry; rewrite Z.gtb_ltb; apply Z.ltb_ge; lia).
  rewrite Hz. reflexivity.
Qed.

Lemma read_divides (fuel : nat) (h : HDD) (ts : float) (address size : Z) :
  _sector_size h = 0 ->
  read fuel h ts address size = DivByZero
  /\ write fuel h ts address size = DivByZero.
Proof. intros Hz. unfold read, write. rewrite Hz. split; reflexivity. Qed.

(** ** More fuel changes no result *)

Lemma decode_track_fuel (h : HDD) (b : Z) :
  forall (fuel fuel' : nat) (t total : Z) (r : Z * Z),
    (fuel <= fuel')%nat ->
    decode_track fuel h b t total = Done r ->
    decode_track fuel' h b t total = Done r.
Proof.
  induction fuel as [|fuel IH]; intros fuel' t total r Hle E; [discriminate|].
  destruct fuel' as [|fuel']; [lia|].
  cbn [decode_track] in *.
  destruct (u32 (u32 (total + track_sector h t * _surfaces h) - 1) >=? b);
    [exact E|].
  apply (IH fuel'); [lia|exact E].
Qed.

Lemma decode_slots_fuel (surfaces sectors b : Z) :
  forall (fuel fuel' : nat) (s k total : Z) (flag : bool) (r : Z * Z),
    (fuel <= fuel')%nat ->
    decode_slots fuel surfaces sectors b s k total flag = Done r ->
    decode_slots fuel' surfaces sectors b s k total flag = Done r.
Proof.
  induction fuel as [|fuel IH]; intros fuel' s k total flag r Hle E;
    [discriminate|].
  destruct fuel' as [|fuel']; [lia|].
  cbn [decode_slots] in *.
  destruct ((k <? sectors) && (total <? b)); [|exact E].
  destruct (decode_surfaces (Z.to_nat surfaces) surfaces b 0 total flag)
    as [[s' total'] flag'].
  destruct flag'; [|apply (IH fuel'); [lia|exact E]].
  destruct (surfaces =? 0); [discriminate|].
  apply (IH fuel'); [lia|exact E].
Qed.

Lemma read_time_loop_fuel (h : HDD) :
  forall (fuel fuel' : nat) (p : HDD_Position) (sectors : Z) (time : float)
         (r : float * Z),
    (fuel <= fuel')%nat ->
    read_time_loop fuel h p sectors time = Done r ->
    read_time_loop fuel' h p sectors time = Done r.
Proof.
  induction fuel as [|fuel IH]; intros fuel' p sectors time r Hle E;
    [discriminate|].
  destruct fuel' as [|fuel']; [lia|].
  cbn [read_time_loop] in *.
  destruct (read_sectors _ _ _ _ _ _) as [s t].
  destruct (s <=? 0); [exact E|].
  apply (IH fuel'); [lia|exact E].
Qed.

Lemma decode_fuel (h : HDD) (fuel fuel' : nat) (address : Z)
      (r : option HDD_Position) :
  (fuel <= fuel')%nat ->
  decode fuel h address = Done r -> decode fuel' h address = Done r.
Proof.
  intros Hle. unfold decode, decode_block.
  destruct ((address <? 0) || (address >? byte_limit h)); [intros E; exact E|].
  destruct (_sector_size h =? 0); [discriminate|].
  destruct (decode_track fuel h _ 0 0) as [[t total]| |] eqn:E1;
    try discriminate.
  rewrite (decode_track_fuel h _ fuel fuel' 0 0 _ Hle E1). cbn [bind].
  destruct (decode_slots fuel _ _ _ 0 0 _ true) as [[s k]| |] eqn:E2;
    try discriminate.
  rewrite (decode_slots_fuel _ _ _ fuel fuel' _ _ _ _ _ Hle E2).
  intros E; exact E.
Qed.

(** A request served with some fuel is served the same with more. *)
Lemma read_fuel (h : HDD) (fuel fuel' : nat) (ts : float) (address size : Z)
      (r : float * HDD) :
  (fuel <= fuel')%nat ->
  read fuel h ts address size = Done r ->
  read fuel' h ts address size = Done r.
Proof.
  intros Hle. unfold read.
  destruct (_sector_size h =? 0); [discriminate|].
  destruct (decode fuel h address) as [d| |] eqn:E1; try discriminate.
  rewrite (decode_fuel h fuel fuel' address d Hle E1). cbn [bind].
  destruct d as [p|]; [|intros E; exact E].
  unfold read_time.
  destruct (read_time_loop fuel _ _ _ 0) as [[time t]| |] eqn:E2;
    try discriminate.
  rewrite (read_time_loop_fuel _ fuel fuel' _ _ _ _ Hle E2).
  intros E; exact E.
Qed.

(** ** Address decoding on a device whose sectors are counted in 32 bits *)

Section Decoding.

Variable h : HDD.
Variable tracks : Z.

Hypothesis surfaces_pos : 1 <= _surfaces h.
Hypothesis tracks_range : 0 <= tracks < 4294967296.
Hypothesis sectors_pos : forall t, 0 <= t < tracks -> 1 <= track_sector h t.
Hypothesis capacity_fits : blocks_before h (Z.to_nat tracks) < 4294967296.

Lemma blocks_before_step (n : nat) :
  Z.of_nat n < tracks -> blocks_before h n < blocks_before h (S n).
Proof.
  intros Hn. cbn [blocks_before].
  pose proof (sectors_pos (Z.of_nat n)). nia.
Qed.

Lemma blocks_before_le (n m : nat) :
  (n <= m)%nat -> Z.of_nat m <= tracks ->
  blocks_before h n <= blocks_before h m.
Proof.
  induction m as [|m IH]; intros Hnm Hm.
  - assert (n = O) as -> by lia. lia.
  - destruct (Nat.eq_dec n (S m)) as [->|Hne]; [lia|].
    pose proof (blocks_before_step m). lia.
Qed.

Lemma blocks_before_nonneg (n : nat) :
  Z.of_nat n <= tracks -> 0 <= blocks_before h n.
Proof. intros Hn. apply (blocks_before_le 0 n); lia. Qed.

Lemma blocks_before_tracks (n : nat) :
  Z.of_nat n <= tracks -> Z.of_nat n <= blocks_before h n.
Proof.
  induction n as [|n IH]; intros Hn; [simpl; lia|].
  pose proof (blocks_before_step n). lia.
Qed.

(** The track of a block is determined by the running totals. *)
Lemma blocks_before_unique (n m : nat) (b : Z) :
  Z.of_nat n < tracks -> Z.of_nat m < tracks ->
  blocks_before h n <= b < blocks_before h (S n) ->
  blocks_before h m <= b < blocks_before h (S m) ->
  n = m.
Proof.
  intros Hn Hm Bn Bm.
  destruct (Nat.lt_trichotomy n m) as [L|[E|L]]; [exfalso|exact E|exfalso].
  - pose proof (blocks_before_le (S n) m). lia.
  - pose proof (blocks_before_le (S m) n). lia.
Qed.

Lemma decode_track_spec (b : Z) :
  b < blocks_before h (Z.to_nat tracks) ->
  forall (fuel n : nat),
    Z.of_nat n < tracks ->
    blocks_before h n <= b ->
    (Z.to_nat tracks - n <= fuel)%nat ->
    exists m : nat,
      Z.of_nat m < tracks /\
      blocks_before h m <= b < blocks_before h (S m) /\
      decode_track fuel h b (Z.of_nat n) (blocks_before h n)
      = Done (Z.of_nat m, blocks_before h (S m)).
Proof.
  intros Hb. induction fuel as [|fuel IH]; intros n Hn Hlo Hfuel; [lia|].
  pose proof (blocks_before_step n Hn) as Hstep.
  pose proof (blocks_before_le (S n) (Z.to_nat tracks)) as Hle.
  pose proof (blocks_before_nonneg n) as H0.
  cbn [decode_track].
  change (blocks_before h n + track_sector h (Z.of_nat n) * _surfaces h)
    with (blocks_before h (S n)).
  rewrite (u32_small (blocks_before h (S n))) by lia.
  rewrite (u32_small (blocks_before h (S n) - 1)) by lia.
  destruct (blocks_before h (S n) - 1 >=? b) eqn:E.
  - exists n. split; [lia|]. split; [lia|reflexivity].
  - assert (Z.of_nat (S n) < tracks) as Hn'.
    { destruct (Z_lt_ge_dec (Z.of_nat (S n)) tracks); [lia|].
      assert (S n = Z.to_nat tracks) as Heq by lia. rewrite <- Heq in Hb. lia. }
    rewrite u32_small by lia.
    replace (Z.of_nat n + 1) with (Z.of_nat (S n)) by lia.
    apply IH; lia.
Qed.

Lemma decode_surfaces_full (b : Z) :
  b < 4294967296 ->
  forall (n : nat) (s total : Z) (flag : bool),
    0 <= total ->
    s + Z.of_nat n = _surfaces h ->
    total + Z.of_nat n <= b ->
    decode_surfaces n (_surfaces h) b s total flag
    = (_surfaces h, total + Z.of_nat n, flag).
Proof.
  intros Hb. induction n as [|n IH]; intros s total flag Ht Hs Hlo.
  - cbn [decode_surfaces]. pair_eq.
  - cbn [decode_surfaces].
    replace (s <? _surfaces h) with true by (symmetry; apply Z.ltb_lt; lia).
    replace (total >=? b) with false
      by (symmetry; rewrite Z.geb_leb; apply Z.leb_gt; lia).
    rewrite u32_small by lia.
    rewrite IH by lia. pair_eq.
Qed.

Lemma decode_surfaces_break (b : Z) :
  b < 4294967296 ->
  forall (n : nat) (s total : Z) (flag : bool),
    0 <= total <= b ->
    s + Z.of_nat n = _surfaces h ->
    b - total < Z.of_nat n ->
    decode_surfaces n (_surfaces h) b s total flag
    = (s + (b - total), b, false).
Proof.
  intros Hb. induction n as [|n IH]; intros s total flag Ht Hs Hlo; [lia|].
  cbn [decode_surfaces].
  replace (s <? _surfaces h) with true by (symmetry; apply Z.ltb_lt; lia).
  destruct (total >=? b) eqn:E.
  - apply Z.geb_le in E. pair_eq.
  - rewrite Z.geb_leb in E. apply Z.leb_gt in E.
    rewrite u32_small by lia.
    rewrite IH by lia. pair_eq.
Qed.

Lemma decode_slots_spec (b first sectors : Z) :
  b < 4294967296 ->
  0 <= first ->
  sectors < 4294967296 ->
  b < first + sectors * _surfaces h ->
  forall (fuel : nat) (j : Z),
    0 <= j ->
    first + j * _surfaces h <= b ->
    (Z.to_nat ((b - first) / _surfaces h - j) + 2 <= fuel)%nat ->
    decode_slots fuel (_surfaces h) sectors b 0 j (first + j * _surfaces h) true
    = Done ((b - first) mod _surfaces h, (b - first) / _surfaces h).
Proof.
  intros Hb Hfirst Hsec Hhi.
  induction fuel as [|fuel IH]; intros j Hj Hlo Hfuel; [lia|].
  cbn [decode_slots].
  destruct (Z.eq_dec (first + j * _surfaces h) b) as [Heq|Hne].
  - replace (first + j * _surfaces h <? b) with false
      by (symmetry; apply Z.ltb_ge; lia).
    rewrite andb_false_r.
    replace (b - first) with (j * _surfaces h) by lia.
    rewrite Z.mod_mul, Z.div_mul by lia. reflexivity.
  - replace (first + j * _surfaces h <? b) with true
      by (symmetry; apply Z.ltb_lt; lia).
    replace (j <? sectors) with true by (symmetry; apply Z.ltb_lt; nia).
    cbn [andb].
    destruct (Z_lt_ge_dec (b - (first + j * _surfaces h)) (_surfaces h))
      as [Hin|Hout].
    + rewrite decode_surfaces_break by lia.
      destruct fuel as [|fuel]; [lia|].
      cbn [decode_slots].
      replace (b <? b) with false by (symmetry; apply Z.ltb_irrefl).
      rewrite andb_false_r. f_equal. f_equal.
      * apply (Z.mod_unique _ _ j); lia.
      * apply (Z.div_unique _ _ _ (b - (first + j * _surfaces h))); lia.
    + assert (j + 1 <= (b - first) / _surfaces h) as Hq
        by (apply Z.div_le_lower_bound; lia).
      rewrite (decode_surfaces_full b Hb (Z.to_nat (_surfaces h))) by lia.
      replace (_surfaces h =? 0) with false by (symmetry; apply Z.eqb_neq; lia).
      rewrite Z_mod_same_full.
      rewrite (u32_small (j + 1)) by nia.
      replace (first + j * _surfaces h + Z.of_nat (Z.to_nat (_surfaces h)))
        with (first + (j + 1) * _surfaces h) by lia.
      apply IH; lia.
Qed.

(** A block below the capacity is decoded to its track, then its
    sector-slot, then its surface. *)
Lemma decode_block_spec (b : Z) (fuel : nat) :
  0 <= b < blocks_before h (Z.to_nat tracks) ->
  blocks_before h (Z.to_nat tracks) < Z.of_nat fuel ->
  exists m : nat,
    Z.of_nat m < tracks /\
    blocks_before h m <= b < blocks_before h (S m) /\
    decode_block fuel h b
    = Done {| surface := (b - blocks_before h m) mod _surfaces h;
              track := Z.of_nat m;
              sector := (b - blocks_before h m) / _surfaces h |}.
Proof.
  intros Hb Hfuel.
  pose proof (blocks_before_tracks (Z.to_nat tracks)) as Htr.
  assert (0 < tracks) as Hpos.
  { destruct (Z.eq_dec tracks 0) as [E0|]; [|lia].
    rewrite E0 in Hb. simpl in Hb. lia. }
  destruct (decode_track_spec b (proj2 Hb) fuel O) as (m & Hm & Hbm & E);
    [lia|simpl; lia|lia|].
  exists m. split; [exact Hm|]. split; [exact Hbm|].
  pose proof (blocks_before_nonneg m) as H0.
  pose proof (blocks_before_le (S m) (Z.to_nat tracks)) as Hle.
  pose proof (track_sector_range h (Z.of_nat m)) as Hr.
  pose proof (sectors_pos (Z.of_nat m)) as Hp.
  unfold decode_block.
  change (Z.of_nat 0) with 0 in E. change (blocks_before h 0) with 0 in E.
  rewrite E.
  cbn [bind].
  replace (blocks_before h (S m) - track_sector h (Z.of_nat m) * _surfaces h)
    with (blocks_before h m) by (cbn [blocks_before]; lia).
  rewrite (u32_small (blocks_before h m)) by lia.
  replace (blocks_before h m) with (blocks_before h m + 0 * _surfaces h) at 1
    by lia.
  rewrite decode_slots_spec.
  - reflexivity.
  - lia.
  - lia.
  - lia.
  - cbn [blocks_before] in Hbm. lia.
  - lia.
  - lia.
  - cbn [blocks_before] in Hbm, Hle.
    assert ((b - blocks_before h m) / _surfaces h < track_sector h (Z.of_nat m))
      by (apply Z.div_lt_upper_bound; lia).
    assert (0 <= (b - blocks_before h m) / _surfaces h)
      by (apply Z.div_pos; lia).
    assert (track_sector h (Z.of_nat m)
            <= track_sector h (Z.of_nat m) * _surfaces h) by nia.
    lia.
Qed.

(** The position a block is decoded to is valid, and its rank in the layout
    is the block. *)
Lemma decode_block_enumerates (b : Z) (fuel : nat) :
  0 <= b < blocks_before h (Z.to_nat tracks) ->
  blocks_before h (Z.to_nat tracks) < Z.of_nat fuel ->
  exists p : HDD_Position,
    decode_block fuel h b = Done p /\
    valid_position h tracks p /\
    block_of h p = b.
Proof.
  intros Hb Hfuel.
  destruct (decode_block_spec b fuel Hb Hfuel) as (m & Hm & Hbm & E).
  cbn [blocks_before] in Hbm.
  pose proof (sectors_pos (Z.of_nat m)) as Hp.
  eexists. split; [exact E|]. split.
  - unfold valid_position; cbn [surface track sector].
    split; [apply Z.mod_pos_bound; lia|]. split; [lia|]. split.
    + apply Z.div_pos; lia.
    + apply Z.div_lt_upper_bound; lia.
  - unfold block_of; cbn [surface track sector]. rewrite Nat2Z.id.
    pose proof (Z.div_mod (b - blocks_before h m) (_surfaces h)). lia.
Qed.

Lemma block_of_range (p : HDD_Position) :
  valid_position h tracks p ->
  blocks_before h (Z.to_nat (track p)) <= block_of h p
  /\ block_of h p < blocks_before h (S (Z.to_nat (track p)))
  /\ 0 <= block_of h p < blocks_before h (Z.to_nat tracks).
Proof.
  intros (Hs & Ht & Hk).
  assert (0 <= blocks_before h (Z.to_nat (track p))) as H0
    by (apply blocks_before_nonneg; lia).
  assert (blocks_before h (S (Z.to_nat (track p)))
          <= blocks_before h (Z.to_nat tracks)) as H1
    by (apply blocks_before_le; lia).
  unfold block_of. cbn [blocks_before] in *. rewrite Z2Nat.id in * by lia.
  repeat split; nia.
Qed.

(** Every valid position is the decoding of its rank. *)
Lemma decode_block_of (p : HDD_Position) (fuel : nat) :
  valid_position h tracks p ->
  blocks_before h (Z.to_nat tracks) < Z.of_nat fuel ->
  decode_block fuel h (block_of h p) = Done p.
Proof.
  intros Hp Hfuel.
  destruct (block_of_range p Hp) as (Hlo & Hhi & Hb).
  destruct (decode_block_spec (block_of h p) fuel Hb Hfuel) as (m & Hm & Hbm & E).
  destruct Hp as (Hs & Ht & Hk).
  assert (Z.to_nat (track p) = m) as Hmt.
  { apply (blocks_before_unique _ _ (block_of h p)); lia. }
  rewrite E. f_equal. destruct p as [s t k]; cbn [surface track sector] in *.
  subst m. unfold block_of; cbn [surface track sector].
  replace (blocks_before h (Z.to_nat t) + k * _surfaces h + s
           - blocks_before h (Z.to_nat t)) with (k * _surfaces h + s) by lia.
  f_equal.
  - symmetry. apply (Z.mod_unique _ _ k); lia.
  - lia.
  - symmetry. apply (Z.div_unique _ _ _ s); lia.
Qed.

(** The rank follows the order of the layout. *)
Lemma block_of_layout (p q : HDD_Position) :
  valid_position h tracks p -> valid_position h tracks q ->
  (layout_lt p q <-> block_of h p < block_of h q).
Proof.
  intros Hp Hq.
  destruct (block_of_range p Hp) as (Plo & Phi & _).
  destruct (block_of_range q Hq) as (Qlo & Qhi & _).
  destruct Hp as (Ps & Pt & Pk). destruct Hq as (Qs & Qt & Qk).
  assert (forall a c : HDD_Position,
             0 <= track a -> track c < tracks -> track a < track c ->
             blocks_before h (S (Z.to_nat (track a)))
             <= blocks_before h (Z.to_nat (track c))) as Hgap.
  { intros a c Ha Hc Hac. apply blocks_before_le; lia. }
  unfold layout_lt. split.
  - intros [Ht|(Ht & [Hk|(Hk & Hs)])].
    + pose proof (Hgap p q). lia.
    + unfold block_of. rewrite Ht. nia.
    + unfold block_of. rewrite Ht, Hk. lia.
  - intros Hlt.
    destruct (Z.lt_trichotomy (track p) (track q)) as [L|[E|L]].
    + left; exact L.
    + right. split; [exact E|].
      unfold block_of in Hlt. rewrite E in Hlt.
      destruct (Z.lt_trichotomy (sector p) (sector q)) as [L|[E'|L]].
      * left; exact L.
      * right. split; [exact E'|]. rewrite E' in Hlt. lia.
      * exfalso. nia.
    + exfalso. pose proof (Hgap q p). lia.
Qed.

End Decoding.

(** ** The capacity the constructor computes *)

Lemma sum_sectors_nonneg (inner : Z) (diff : float) (n : nat) :
  0 <= sum_sectors inner diff n.
Proof.
  induction n as [|n IH]; [simpl; lia|]. cbn [sum_sectors].
  pose proof (floor_u32_range (dbl inner + diff * dbl (Z.of_nat n))%float).
  unfold sectors_at. lia.
Qed.

Lemma sum_sectors_le (inner : Z) (diff : float) (n m : nat) :
  (n <= m)%nat -> sum_sectors inner diff n <= sum_sectors inner diff m.
Proof.
  induction m as [|m IH]; intros Hnm.
  - assert (n = O) as -> by lia. lia.
  - destruct (Nat.eq_dec n (S m)) as [->|Hne]; [lia|].
    cbn [sum_sectors].
    pose proof (floor_u32_range (dbl inner + diff * dbl (Z.of_nat m))%float).
    unfold sectors_at. lia.
Qed.

Lemma count_sectors_sum (inner : Z) (diff : float) :
  forall (n i : nat),
    sum_sectors inner diff (i + n) < 4294967296 ->
    count_sectors n inner diff (Z.of_nat i) (sum_sectors inner diff i)
    = sum_sectors inner diff (i + n).
Proof.
  induction n as [|n IH]; intros i Hfit.
  - cbn [count_sectors]. f_equal. lia.
  - cbn [count_sectors].
    change (sum_sectors inner diff i + sectors_at inner diff (Z.of_nat i))
      with (sum_sectors inner diff (S i)).
    pose proof (sum_sectors_nonneg inner diff (S i)).
    pose proof (sum_sectors_le inner diff (S i) (i + S n)).
    rewrite u32_small by lia.
    replace (Z.of_nat i + 1) with (Z.of_nat (S i)) by lia.
    rewrite IH; [f_equal; lia|].
    replace (S i + n)%nat with (i + S n)%nat by lia. exact Hfit.
Qed.

Lemma blocks_before_sum (h : HDD) (n : nat) :
  blocks_before h n
  = sum_sectors (_sectors_innermost_track h) (_sectors_diff h) n * _surfaces h.
Proof.
  induction n as [|n IH]; [reflexivity|].
  cbn [blocks_before sum_sectors]. rewrite IH. unfold track_sector. lia.
Qed.

(** When the sectors of the device can be counted in 32 bits, the
    constructor's total is the number of blocks of all the tracks. *)
Lemma total_sectors_blocks (h : HDD) (tracks : Z) :
  1 <= _surfaces h ->
  blocks_before h (Z.to_nat tracks) < 4294967296 ->
  total_sectors (_surfaces h) tracks (_sectors_innermost_track h)
    (_sectors_diff h)
  = blocks_before h (Z.to_nat tracks).
Proof.
  intros Hs Hfit. rewrite blocks_before_sum in *.
  pose proof (sum_sectors_nonneg (_sectors_innermost_track h) (_sectors_diff h)
                (Z.to_nat tracks)).
  unfold total_sectors.
  rewrite (count_sectors_sum _ _ (Z.to_nat tracks) O) by (simpl; nia).
  cbn [Nat.add]. apply u32_small. nia.
Qed.

(** ** [decode] on addresses *)

Lemma byte_limit_nonneg (h : HDD) : 0 <= byte_limit h.
Proof. unfold byte_limit, u64. apply Z.mod_pos_bound. lia. Qed.

(** The first byte of a device whose sectors have a size is always decoded
    to the first position. *)
Lemma decode_zero (h : HDD) (fuel : nat) :
  _sector_size h <> 0 ->
  decode (S fuel) h 0 = Done (Some (track_start 0)).
Proof.
  intros Hss. pose proof (byte_limit_nonneg h) as Hl.
  unfold decode.
  replace (0 >? byte_limit h) with false
    by (symmetry; rewrite Z.gtb_ltb; apply Z.ltb_ge; lia).
  replace (_sector_size h =? 0) with false by (symmetry; apply Z.eqb_neq; lia).
  cbn [Z.ltb Z.compare orb]. rewrite Zdiv_0_l.
  change (u32 0) with 0.
  unfold decode_block. cbn [decode_track].
  set (total := u32 (0 + track_sector h 0 * _surfaces h)).
  pose proof (u32_range (total - 1)) as H1.
  replace (u32 (total - 1) >=? 0) with true
    by (symmetry; apply Z.geb_le; lia).
  cbn [bind decode_slots].
  pose proof (u32_range (total - track_sector h 0 * _surfaces h)) as H2.
  replace (u32 (total - track_sector h 0 * _surfaces h) <? 0) with false
    by (symmetry; apply Z.ltb_ge; lia).
  rewrite andb_false_r. reflexivity.
Qed.

Lemma decode_block_address (h : HDD) (fuel : nat) (b : Z) :
  1 <= _sector_size h ->
  0 <= b < 4294967296 ->
  b * _sector_size h <= byte_limit h ->
  decode fuel h (b * _sector_size h)
  = (p <- decode_block fuel h b ;; Done (Some p)).
Proof.
  intros Hss Hb Hlim. unfold decode.
  replace (b * _sector_size h <? 0) with false
    by (symmetry; apply Z.ltb_ge; nia).
  replace (b * _sector_size h >? byte_limit h) with false
    by (symmetry; rewrite Z.gtb_ltb; apply Z.ltb_ge; lia).
  replace (_sector_size h =? 0) with false by (symmetry; apply Z.eqb_neq; lia).
  cbn [orb]. rewrite Z.div_mul by lia. rewrite u32_small by lia. reflexivity.
Qed.

(** ** A request on a position [decode] found *)

(** Once the address is decoded and the walk has returned, [read] and
    [write] add the three times and store the track reached. *)
Lemma request_served (fuel : nat) (h : HDD) (ts : float) (address size : Z)
      (p : HDD_Position) (time : float) (t : Z) :
  decode fuel h address = Done (Some p) ->
  read_time_loop fuel h p (u32 (size / _sector_size h)) 0 = Done (time, t) ->
  read fuel h ts address size
  = Done ((ts + (seek_time h (_head_pos h) (track p) + wait_time h + time))%float,
          set_head_pos (set_target_pos h p) t)
  /\ write fuel h ts address size
     = Done ((ts + (seek_time h (_head_pos h) (track p) + wait_time h + time))%float,
             set_head_pos (set_target_pos h p) t).
Proof.
  intros Hd Ht.
  split; [unfold read|unfold write];
    rewrite (sector_size_eqb _ _ _ _ Hd), Hd; cbn [bind]; unfold read_time;
    cbn [_target_pos set_target_pos]; rewrite read_time_loop_set_target;
    change (_sector_size (set_target_pos h p)) with (_sector_size h);
    rewrite Ht; reflexivity.
Qed.

(** ** Address decoding enumerates the positions (claim C1) *)

Example hdd8_geometry :
  track_sector hdd8 0 = 10 /\ track_sector hdd8 1 = 20 /\
  total_sectors 1 2 10 (_sectors_diff hdd8) = 30 /\ byte_limit hdd8 = 15359.
Proof. vm_compute. repeat split. Qed.

(** The sector counts are the device's own.  [track_sector] is the binary64
    expression of the source, and it can fall one short of the exact count
    of the specification: with twelve tracks from 1 sector to 16 the
    gradient 15 / 11 is rounded down, the last track holds 15 sectors where
    the exact count is 16, and the device has 96 sectors, not 97.  The
    sixteenth sector-slot of track 11 is no position of this device, and
    the first byte of block 96 is decoded to a thirteenth track. *)
Example computed_sector_counts :
  spec_sectors_on_track 1 16 12 11 = 16
  /\ track_sector hdd12 11 = 15
  /\ total_sectors 1 12 1 (_sectors_diff hdd12) = 96
  /\ ~ valid_position hdd12 12 {| surface := 0; track := 11; sector := 15 |}
  /\ decode 100 hdd12 (95 * 512)
     = Done (Some {| surface := 0; track := 11; sector := 14 |})
  /\ decode 100 hdd12 (96 * 512)
     = Done (Some {| surface := 0; track := 12; sector := 0 |}).
Proof.
  repeat apply conj; try (vm_compute; reflexivity).
  unfold valid_position. cbn [surface track sector].
  replace (track_sector hdd12 11) with 15 by (vm_compute; reflexivity). lia.
Qed.

(** C1, as the code has it.  The capacity, the sector count of a track and
    the valid positions are those of the device: [track_sector] is the
    count the code computes in binary64 (see [computed_sector_counts]),
    [total_sectors] the 32-bit total of the constructor, and a position is
    valid when its sector-slot is below [track_sector] of its track.  Take a
    device built by the constructor with one surface at least and sectors of
    one byte at least, on which every track holds one sector at least, whose
    sectors can be counted in 32 bits, and whose byte limit admits the first
    byte of the last block.  Then the capacity the constructor computes is
    the number of positions; every block below the capacity is decoded
    (with enough fuel) to a valid position whose rank in the layout is the
    block; every valid position is the decoding of its rank, which is below
    the capacity; and the rank follows the order track first, then
    sector-slot, then surface.  On any device whose sector size is not 0,
    byte 0 is decoded to surface 0, track 0, sector-slot 0, and in the
    scenario of section 8 bytes 9 * 512 and 10 * 512 are decoded to
    sector-slot 9 of track 0 and sector-slot 0 of track 1. *)
Theorem decode_enumerates_positions
        (surfaces tracks inner outer rpm sector_size : Z)
        (seek_overhead seek_per_track : float) (verbose : bool) :
  let h := fst (HDD_new surfaces tracks inner outer rpm sector_size
                  seek_overhead seek_per_track verbose) in
  let capacity := total_sectors surfaces tracks inner (_sectors_diff h) in
  1 <= surfaces ->
  0 <= tracks < 4294967296 ->
  1 <= sector_size ->
  (forall t, 0 <= t < tracks -> 1 <= track_sector h t) ->
  blocks_before h (Z.to_nat tracks) < 4294967296 ->
  (capacity - 1) * sector_size <= byte_limit h ->
  capacity = blocks_before h (Z.to_nat tracks)
  /\ (forall (b : Z) (fuel : nat),
         0 <= b < capacity -> capacity < Z.of_nat fuel ->
         exists p, decode fuel h (b * sector_size) = Done (Some p)
                   /\ valid_position h tracks p
                   /\ block_of h p = b)
  /\ (forall (p : HDD_Position) (fuel : nat),
         valid_position h tracks p -> capacity < Z.of_nat fuel ->
         0 <= block_of h p < capacity
         /\ decode fuel h (block_of h p * sector_size) = Done (Some p))
  /\ (forall p q : HDD_Position,
         valid_position h tracks p -> valid_position h tracks q ->
         (layout_lt p q <-> block_of h p < block_of h q))
  /\ (forall (h' : HDD) (fuel : nat),
         _sector_size h' <> 0 ->
         decode (S fuel) h' 0
         = Done (Some {| surface := 0; track := 0; sector := 0 |}))
  /\ decode 31 hdd8 (9 * 512)
     = Done (Some {| surface := 0; track := 0; sector := 9 |})
  /\ decode 31 hdd8 (10 * 512)
     = Done (Some {| surface := 0; track := 1; sector := 0 |}).
Proof.
  intros h capacity Hs Ht Hss Hpos Hfit Hlim.
  assert (capacity = blocks_before h (Z.to_nat tracks)) as Hcap
    by (apply (total_sectors_blocks h tracks); assumption).
  assert (_sector_size h = sector_size) as Ess by reflexivity.
  assert (_surfaces h = surfaces) as Esf by reflexivity.
  split; [exact Hcap|]. split; [|split; [|split; [|split; [|split]]]].
  - intros b fuel Hb Hfuel.
    destruct (decode_block_enumerates h tracks) with (b := b) (fuel := fuel)
      as (p & E & Hv & Hr); try assumption; try lia.
    exists p. split; [|split; assumption].
    rewrite <- Ess, decode_block_address, E; try reflexivity; try lia.
    rewrite Ess. nia.
  - intros p fuel Hv Hfuel.
    destruct (block_of_range h tracks) with (p := p) as (_ & _ & Hr);
      try assumption; try lia.
    split; [lia|].
    rewrite <- Ess, decode_block_address, (decode_block_of h tracks);
      try reflexivity; try assumption; try lia.
    rewrite Ess. nia.
  - intros p q Hp Hq. apply (block_of_layout h tracks); assumption.
  - intros h' fuel Hz. apply decode_zero. exact Hz.
  - vm_compute. reflexivity.
  - vm_compute. reflexivity.
Qed.

Lemma decode_enumerates_positions_witness :
  0 <= block_of hdd8 {| surface := 0; track := 1; sector := 19 |} < 30
  /\ decode 31 hdd8 (29 * 512)
     = Done (Some {| surface := 0; track := 1; sector := 19 |}).
Proof.
  destruct (decode_enumerates_positions 1 2 10 20 6000 512 0 0 false)
    as (_ & _ & H & _).
  - lia.
  - lia.
  - lia.
  - intros t Ht. assert (t = 0 \/ t = 1) as [->| ->] by lia;
      vm_compute; discriminate.
  - vm_compute. reflexivity.
  - vm_compute. discriminate.
  - apply (H {| surface := 0; track := 1; sector := 19 |} 31%nat).
    + vm_compute. repeat split; discriminate.
    + vm_compute. reflexivity.
Defined.

(** C1 as stated fails on a geometry whose sectors exceed 32 bits: with
    65536 surfaces and tracks of 65536 and 131072 sectors the constructor
    counts 3 * 2^32 sectors as 0, so no block index is below the capacity,
    while the device has valid positions: they are not all decodings of a
    block below the capacity.  Block 1, the second surface of the first
    sector-slot, is rejected by [decode]. *)
Lemma decode_capacity_wraps :
  total_sectors 65536 2 65536 (_sectors_diff hdd_wide) = 0
  /\ valid_position hdd_wide 2 {| surface := 0; track := 0; sector := 0 |}
  /\ valid_position hdd_wide 2 {| surface := 1; track := 0; sector := 0 |}
  /\ decode 2 hdd_wide (1 * 512) = Done None
  /\ ~ (forall p, valid_position hdd_wide 2 p ->
          exists (b : Z) (fuel : nat),
            0 <= b < total_sectors 65536 2 65536 (_sectors_diff hdd_wide)
            /\ decode fuel hdd_wide (b * 512) = Done (Some p)).
Proof.
  assert (total_sectors 65536 2 65536 (_sectors_diff hdd_wide) = 0) as E
    by (vm_compute; reflexivity).
  assert (valid_position hdd_wide 2 {| surface := 0; track := 0; sector := 0 |})
    as V by (vm_compute; repeat split; discriminate).
  split; [exact E|]. split; [exact V|].
  split; [vm_compute; repeat apply conj; first [discriminate|reflexivity]|].
  split; [vm_compute; reflexivity|].
  intros H. destruct (H _ V) as (b & fuel & Hb & _). rewrite E in Hb. lia.
Qed.

(** ** The walk over the tracks (claim C3) *)

(** In the scenario of section 8 the time of a sector is 60 / (rpm * sectors
    of the track), to the last bit. *)
Example hdd8_sector_time :
  sector_time hdd8 10 = (60 / (dbl 6000 * dbl 10))%float
  /\ sector_time hdd8 20 = (60 / (dbl 6000 * dbl 20))%float
  /\ wait_time hdd8 = (30 / dbl 6000)%float.
Proof. vm_compute. repeat split. Qed.

(** C3, as the code has it.  A transfer of [sectors] sectors that starts at
    position [p] with [time] already spent adds the binary64 value of
    [1 / rpm * (1 / track_sector) * 60], [track_sector] being the count the
    device computes for the track, for every
    sector it takes on [p]'s track, where [k = max_access h p] sectors are
    left: the sector-slots after [p]'s on all surfaces and the surfaces from
    [p]'s on in its own slot, counted in 32 bits.  When [sectors <= k] it
    ends on that track.  Otherwise it takes the [k] sectors, moves to
    surface 0, sector-slot 0 of the next track, adds one seek between
    adjacent tracks and one rotational wait, and goes on from there with the
    sectors that remain.  So a transfer that takes the [k] sectors left on
    the track and [m] more on the next one, which has room for them, costs
    the [k + m] sector times and exactly one seek plus one wait, and ends on
    the next track. *)
Theorem transfer_walks_tracks (h : HDD) (p : HDD_Position) (fuel : nat)
        (sectors : Z) (time : float) :
  0 <= sectors ->
  let cost (t : Z) :=
    (1 / dbl (_rpm h) * (1 / dbl (track_sector h t)) * 60)%float in
  let k := max_access h p in
  let q := next_track p in
  let crossing :=
    (seek_time h (track q) (u32 (track q + 1)) + wait_time h)%float in
  (sectors <= k ->
   read_time_loop (S fuel) h p sectors time
   = Done (charge (Z.to_nat sectors) (cost (track p)) time, track p))
  /\ (k < sectors ->
      read_time_loop (S fuel) h p sectors time
      = read_time_loop fuel h q (sectors - k)
          (charge (Z.to_nat k) (cost (track p)) time + crossing)%float)
  /\ (surface q = 0 /\ sector q = 0 /\ track q = u32 (track p + 1))
  /\ k = u32 ((track_sector h (track p) - sector p - 1) * _surfaces h
              + (_surfaces h - surface p))
  /\ (0 <= surface p < _surfaces h ->
      0 <= sector p < track_sector h (track p) ->
      track_sector h (track p) * _surfaces h < 4294967296 ->
      k = (track_sector h (track p) - sector p - 1) * _surfaces h
          + (_surfaces h - surface p))
  /\ (forall m : Z,
         1 <= m <= max_access h q ->
         read_time_loop (S (S fuel)) h p (k + m) time
         = Done (charge (Z.to_nat m) (cost (track q))
                   (charge (Z.to_nat k) (cost (track p)) time + crossing)%float,
                 track q)).
Proof.
  intros Hs cost k q crossing.
  pose proof (max_access_range h p) as Hk. fold k in Hk.
  split; [|split; [|split; [|split; [|split]]]].
  - intros Hle. apply read_time_loop_last. fold k. lia.
  - intros Hlt. apply read_time_loop_cross. exact Hlt.
  - repeat split.
  - unfold k, max_access. f_equal. lia.
  - intros H1 H2 H3.
    destruct (max_access_remaining h p H1 H2 H3) as [E _]. fold k in E. lia.
  - intros m Hm.
    rewrite read_time_loop_cross by (fold k; lia).
    fold k q. replace (k + m - k) with m by lia.
    rewrite read_time_loop_last by lia. reflexivity.
Qed.

Lemma transfer_walks_tracks_witness :
  read_time_loop 2 hdd8 {| surface := 0; track := 0; sector := 0 |} 11 0
  = Done (charge 1 (sector_time hdd8 20)
            (charge 10 (sector_time hdd8 10) 0
             + (seek_time hdd8 1 2 + wait_time hdd8))%float,
          1).
Proof.
  destruct (transfer_walks_tracks hdd8 {| surface := 0; track := 0; sector := 0 |}
              0 0 0) as (_ & _ & _ & _ & _ & H); [lia|].
  apply (H 1). vm_compute. split; discriminate.
Defined.

(** C3 as stated fails in its two formulas.  The cost of a sector is not
    60 / (rpm * sectors of the track) to the last bit: on a track of 13
    sectors at 6000 rpm one sector takes the three-operation product of the
    source, one unit in the last place above the quotient.  And the sectors
    of a track are the device's count, not the exact one: on the last track
    of twelve from 1 sector to 16, where the exact count is 16 and the
    device's 15, a run of 16 sectors from the start of the track does not
    end on it: it moves to a further track, and pays the seek and the
    wait. *)
Lemma sector_cost_is_rounded :
  track_sector hdd13 0 = 13
  /\ read_time_loop 1 hdd13 (track_start 0) 1 0
     = Done (sector_time hdd13 13, 0)
  /\ (0 + sector_time hdd13 13)%float = sector_time hdd13 13
  /\ sector_time hdd13 13 = 0.00076923076923076934%float
  /\ (60 / (dbl (_rpm hdd13) * dbl (track_sector hdd13 0)))%float
     = 0.00076923076923076923%float
  /\ sector_time hdd13 13
     <> (60 / (dbl (_rpm hdd13) * dbl (track_sector hdd13 0)))%float
  /\ spec_sectors_on_track 1 16 12 11 = 16
  /\ track_sector hdd12 11 = 15
  /\ max_access hdd12 (track_start 11) = 15
  /\ (exists time : float,
         read_time_loop 2 hdd12 (track_start 11) 16 0 = Done (time, 12)).
Proof.
  repeat apply conj; try (vm_compute; reflexivity).
  - intros H.
    apply (f_equal (fun x => (x =? 0.00076923076923076923)%float)) in H.
    vm_compute in H. discriminate.
  - eexists. vm_compute. reflexivity.
Qed.

(** ** [write] is [read] (claim C9) *)


(** C9.  From any state and for any request, [write] returns what [read]
    returns, the timestamp and the device with its head where [read] leaves
    it, and runs out of fuel exactly when [read] does; [write_time], which
    nothing calls, is [read_time] as well. *)
Theorem write_is_read (fuel : nat) (h : HDD) (ts : float) (address size : Z) :
  write fuel h ts address size = read fuel h ts address size
  /\ write_time fuel h size = read_time fuel h size.
Proof.
  split.
  - unfold write, read. destruct (_sector_size h =? 0); [reflexivity|].
    destruct (decode fuel h address) as [[p|]| |]; reflexivity.
  - unfold write_time, read_time.
    destruct (read_time_loop fuel h (_target_pos h) size 0) as [[t k]| |];
      reflexivity.
Qed.

(** ** [read] adds up the three times (claim C2) *)

(** C2, as the code has it.  Let [decode] find the position [p] of the
    address, on one of the surfaces and sector-slots of its track, and let
    the request count [n = size / sector_size] sectors, fewer than 2^32.  If
    the device has one surface at least and every track the transfer can
    reach ([p]'s own and the [n] after it) holds one sector at least and no
    more positions than 32 bits count, then with more than [n] passes the
    transfer of [n] sectors from [p] returns a time and a track [t], and
    [read] returns [ts + (seek + wait + time)], the seek being the one from
    the head's track to [p]'s, and leaves the head on [t].  In the scenario
    of section 8, [read (0, 0, 512)] returns 0.006 and leaves the head on
    track 0. *)
Theorem read_adds_times (fuel : nat) (h : HDD) (ts : float) (address size : Z)
        (p : HDD_Position) :
  let n := size / _sector_size h in
  decode fuel h address = Done (Some p) ->
  0 <= n < 4294967296 ->
  1 <= _surfaces h ->
  0 <= surface p < _surfaces h ->
  0 <= sector p < track_sector h (track p) ->
  track_sector h (track p) * _surfaces h < 4294967296 ->
  (forall i, 1 <= i <= n ->
             1 <= track_sector h (u32 (track p + i))
             /\ track_sector h (u32 (track p + i)) * _surfaces h < 4294967296) ->
  n < Z.of_nat fuel ->
  (exists (time : float) (t : Z) (h' : HDD),
      read_time_loop fuel h p n 0 = Done (time, t)
      /\ read fuel h ts address size
         = Done ((ts + (seek_time h (_head_pos h) (track p) + wait_time h
                        + time))%float,
                 h')
      /\ _head_pos h' = t
      /\ h' = set_head_pos (set_target_pos h p) t)
  /\ _head_pos hdd8 = 0
  /\ (exists h' : HDD,
         read 2 hdd8 0 0 512 = Done (0.006%float, h') /\ _head_pos h' = 0).
Proof.
  intros n Hd Hn HS Hs Hk Hfit Hreach Hfuel.
  split; [|split; [reflexivity|eexists; split; [vm_compute|]; reflexivity]].
  assert (1 <= max_access h p) as Hp
    by (apply max_access_remaining; assumption).
  destruct (read_time_loop_returns h fuel p n 0%float) as [[time t] E].
  - lia.
  - exact Hp.
  - intros i Hi. destruct (Hreach i Hi) as [H1 H2].
    rewrite max_access_track_start by assumption. nia.
  - exists time, t, (set_head_pos (set_target_pos h p) t).
    split; [exact E|]. split; [|split; reflexivity].
    apply request_served; [exact Hd|].
    fold n. rewrite u32_small by exact Hn. exact E.
Qed.

Lemma read_adds_times_witness :
  exists (time : float) (t : Z) (h' : HDD),
    read_time_loop 12 hdd8 {| surface := 0; track := 0; sector := 0 |}
      (11 * 512 / _sector_size hdd8) 0
    = Done (time, t)
    /\ read 12 hdd8 0 0 (11 * 512)
       = Done ((0 + (seek_time hdd8 (_head_pos hdd8) 0 + wait_time hdd8
                     + time))%float,
               h')
    /\ _head_pos h' = t
    /\ h' = set_head_pos
              (set_target_pos hdd8 {| surface := 0; track := 0; sector := 0 |})
              t.
Proof.
  destruct (read_adds_times 12 hdd8 0 0 (11 * 512)
              {| surface := 0; track := 0; sector := 0 |}) as [H _].
  - vm_compute. reflexivity.
  - vm_compute. split; [discriminate|reflexivity].
  - vm_compute. discriminate.
  - vm_compute. split; [discriminate|reflexivity].
  - vm_compute. split; [discriminate|reflexivity].
  - vm_compute. reflexivity.
  - intros i Hi.
    assert (11 * 512 / _sector_size hdd8 = 11) as E by (vm_compute; reflexivity).
    rewrite E in Hi.
    assert (i = 1 \/ i = 2 \/ i = 3 \/ i = 4 \/ i = 5 \/ i = 6 \/ i = 7
            \/ i = 8 \/ i = 9 \/ i = 10 \/ i = 11)
      as [->|[->|[->|[->|[->|[->|[->|[->|[->|[->| ->]]]]]]]]]] by lia;
      vm_compute; split; first [discriminate|reflexivity].
  - vm_compute. reflexivity.
  - exact H.
Defined.

(** C2 as stated fails for a size of 2^32 sectors or more: the sector count
    is kept in 32 bits.  On a device with tracks of 2^31 and 2^32 - 1
    one-byte sectors, a transfer of [4294967297 / 1] sectors from the first
    position ends on track 1, while [read (0, 0, 4294967297)] transfers one
    sector and leaves the head on track 0. *)
Lemma read_counts_sectors_in_32_bits :
  decode 2 hdd_long 0 = Done (Some {| surface := 0; track := 0; sector := 0 |})
  /\ 4294967297 / _sector_size hdd_long = 4294967297
  /\ (exists time : float,
         read_time_loop 2 hdd_long {| surface := 0; track := 0; sector := 0 |}
           4294967297 0
         = Done (time, 1))
  /\ (exists (t : float) (h' : HDD),
         read 2 hdd_long 0 0 4294967297 = Done (t, h') /\ _head_pos h' = 0).
Proof.
  split; [vm_compute; reflexivity|]. split; [vm_compute; reflexivity|]. split.
  - set (p := {| surface := 0; track := 0; sector := 0 |}).
    assert (max_access hdd_long p = 2147483648) as E0
      by (vm_compute; reflexivity).
    assert (max_access hdd_long (next_track p) = 4294967295) as E1
      by (vm_compute; reflexivity).
    eexists.
    rewrite read_time_loop_cross by (rewrite E0; lia).
    rewrite read_time_loop_last by (rewrite E0, E1; lia).
    reflexivity.
  - eexists. eexists. split; [vm_compute; reflexivity|reflexivity].
Qed.

(** ** The walk ends (claim C10) *)

(** C10, as the code has it.  Let [decode] find a position [p] of the
    device, on one of its surfaces and sector-slots, and let the request
    count [n = (size / sector_size) mod 2^32] sectors.  If the device has one
    surface at least and every track the walk can reach (the [n] tracks
    after [p]'s, and [p]'s own) holds one sector at least and no more
    positions than 32 bits count, then every track visited has room for one
    sector at least, the walk returns whenever it is given more than [n]
    passes, and so do [read] and [write], with the same result. *)
Theorem transfer_terminates (h : HDD) (fuel : nat) (ts : float)
        (address size : Z) (p : HDD_Position) :
  let n := u32 (size / _sector_size h) in
  decode fuel h address = Done (Some p) ->
  1 <= _surfaces h ->
  0 <= surface p < _surfaces h ->
  0 <= sector p < track_sector h (track p) ->
  track_sector h (track p) * _surfaces h < 4294967296 ->
  (forall i, 1 <= i <= n ->
             1 <= track_sector h (u32 (track p + i))
             /\ track_sector h (u32 (track p + i)) * _surfaces h < 4294967296) ->
  n < Z.of_nat fuel ->
  (1 <= max_access h p
   /\ forall i, 1 <= i <= n ->
                1 <= max_access h (track_start (u32 (track p + i))))
  /\ (forall time : float,
         exists r, read_time_loop fuel h p n time = Done r)
  /\ (exists r, read fuel h ts address size = Done r
                /\ write fuel h ts address size = Done r).
Proof.
  intros n Hd HS Hs Hk Hfit Hreach Hfuel.
  pose proof (u32_range (size / _sector_size h)) as Hn. fold n in Hn.
  assert (1 <= max_access h p) as Hp
    by (apply max_access_remaining; assumption).
  assert (forall i, 1 <= i <= n ->
                    1 <= max_access h (track_start (u32 (track p + i)))) as Hq.
  { intros i Hi. destruct (Hreach i Hi) as [H1 H2].
    rewrite max_access_track_start by assumption. nia. }
  assert (forall time, exists r, read_time_loop fuel h p n time = Done r) as Hw.
  { intros time. apply read_time_loop_returns; [lia|exact Hp|exact Hq]. }
  split; [split; assumption|]. split; [exact Hw|].
  destruct (Hw 0%float) as [[time t] E].
  eexists. apply request_served; [exact Hd|exact E].
Qed.

Lemma transfer_terminates_witness :
  (1 <= max_access hdd8 {| surface := 0; track := 0; sector := 9 |}
   /\ forall i, 1 <= i <= u32 (1024 / _sector_size hdd8) ->
                1 <= max_access hdd8 (track_start (u32 (0 + i))))
  /\ (forall time : float,
         exists r,
           read_time_loop 12 hdd8 {| surface := 0; track := 0; sector := 9 |}
             (u32 (1024 / _sector_size hdd8)) time = Done r)
  /\ (exists r, read 12 hdd8 0 (9 * 512) 1024 = Done r
                /\ write 12 hdd8 0 (9 * 512) 1024 = Done r).
Proof.
  apply (transfer_terminates hdd8 12 0 (9 * 512) 1024
           {| surface := 0; track := 0; sector := 9 |}).
  - vm_compute. reflexivity.
  - vm_compute. discriminate.
  - vm_compute. split; [discriminate|reflexivity].
  - vm_compute. split; [discriminate|reflexivity].
  - vm_compute. reflexivity.
  - change (u32 (1024 / _sector_size hdd8)) with 2. intros i Hi.
    assert (i = 1 \/ i = 2) as [->| ->] by lia;
      vm_compute; split; [discriminate|reflexivity|discriminate|reflexivity].
  - vm_compute. reflexivity.
Defined.

(** On [hdd_wide_flat] the gradient is zero, so a track holds 65536 sectors
    (or none, were the product with the track number not a number), and
    [max_access] counts the 2^32 positions of a track as 0. *)
Lemma hdd_wide_flat_max_access (t : Z) :
  max_access hdd_wide_flat (track_start t) = 0.
Proof.
  unfold max_access, track_sector, sectors_at, floor_u32, floorZ.
  cbn [track sector surface track_start].
  rewrite FloatAxioms.add_spec, FloatAxioms.mul_spec.
  change (Prim2SF (_sectors_diff hdd_wide_flat)) with (S754_zero false).
  replace (Prim2SF (dbl (_sectors_innermost_track hdd_wide_flat)))
    with (S754_finite false 4503599627370496 (-36)) by (vm_compute; reflexivity).
  destruct (Prim2SF (dbl t)) as [s|s| |s m e]; reflexivity.
Qed.

Lemma hdd_wide_flat_walk :
  forall (fuel : nat) (t sectors : Z) (time : float),
    1 <= sectors ->
    read_time_loop fuel hdd_wide_flat (track_start t) sectors time = OutOfFuel.
Proof.
  induction fuel as [|fuel IH]; intros t sectors time Hs; [reflexivity|].
  rewrite read_time_loop_cross by (rewrite hdd_wide_flat_max_access; lia).
  apply IH. rewrite hdd_wide_flat_max_access. lia.
Qed.

(** C10 as stated fails when the positions of a track are not counted in 32
    bits.  With 65536 surfaces and tracks of 65536 sectors (one surface at
    least, positive sector counts that do not decrease), byte 0 is decoded
    to a valid position, [max_access] counts the 2^32 positions of a track
    as 0, the walk for one sector takes nothing from any track, and [read]
    and [write] of one sector do not return, whatever the fuel.  The same
    happens when the second track holds 131072 sectors: the walk has not
    returned after 4096 tracks, on all of which the sectors are counted
    without overflow. *)
Lemma transfer_without_progress :
  (decode 1 hdd_wide_flat 0
   = Done (Some {| surface := 0; track := 0; sector := 0 |})
   /\ valid_position hdd_wide_flat 2 {| surface := 0; track := 0; sector := 0 |}
   /\ track_sector hdd_wide_flat 0 = 65536
   /\ track_sector hdd_wide_flat 1 = 65536
   /\ max_access hdd_wide_flat {| surface := 0; track := 0; sector := 0 |} = 0
   /\ forall fuel : nat,
        read fuel hdd_wide_flat 0 0 512 = OutOfFuel
        /\ write fuel hdd_wide_flat 0 0 512 = OutOfFuel)
  /\ (decode 1 hdd_wide 0
      = Done (Some {| surface := 0; track := 0; sector := 0 |})
      /\ valid_position hdd_wide 2 {| surface := 0; track := 0; sector := 0 |}
      /\ track_sector hdd_wide 0 = 65536
      /\ track_sector hdd_wide 1 = 131072
      /\ track_sector hdd_wide 4095 = 4096 * 65536
      /\ max_access hdd_wide {| surface := 0; track := 0; sector := 0 |} = 0
      /\ read walk_bound hdd_wide 0 0 512 = OutOfFuel).
Proof.
  apply conj.
  - apply conj; [vm_compute; reflexivity|].
    apply conj;
      [vm_compute; repeat apply conj; first [discriminate|reflexivity]|].
    do 3 (apply conj; [vm_compute; reflexivity|]).
    intros fuel.
    assert (read fuel hdd_wide_flat 0 0 512 = OutOfFuel) as E.
    { destruct fuel as [|fuel]; [reflexivity|].
      assert ((_sector_size hdd_wide_flat =? 0) = false) as Ez by reflexivity.
      unfold read. rewrite Ez, decode_zero by (vm_compute; discriminate).
      cbn [bind]. unfold read_time.
      cbn [_target_pos set_target_pos]. rewrite read_time_loop_set_target.
      rewrite (hdd_wide_flat_walk (S fuel) 0); [reflexivity|].
      vm_compute. discriminate. }
    split; [exact E|exact E].
  - apply conj; [vm_compute; reflexivity|].
    apply conj;
      [vm_compute; repeat apply conj; first [discriminate|reflexivity]|].
    repeat apply conj; vm_compute; reflexivity.
Qed.

(** ** A rejected request (claim C7) *)

(** [decode] answers [false] exactly for the addresses its first test
    rejects; no fuel is needed for that. *)
Lemma decode_rejects_iff (fuel : nat) (h : HDD) (address : Z) :
  decode fuel h address = Done None
  <-> (address < 0 \/ byte_limit h < address).
Proof.
  unfold decode. split.
  - destruct (address <? 0) eqn:E1; [intros _; left; apply Z.ltb_lt; exact E1|].
    destruct (address >? byte_limit h) eqn:E2.
    + intros _. right. rewrite Z.gtb_ltb in E2. apply Z.ltb_lt. exact E2.
    + cbn [orb]. destruct (_sector_size h =? 0); [discriminate|].
      destruct (decode_block fuel h _); discriminate.
  - intros [H|H].
    + replace (address <? 0) with true by (symmetry; apply Z.ltb_lt; exact H).
      reflexivity.
    + replace (address >? byte_limit h) with true
        by (symmetry; rewrite Z.gtb_ltb; apply Z.ltb_lt; exact H).
      rewrite orb_true_r. reflexivity.
Qed.

(** C7, as the code has it.  On a device whose sectors have a size other
    than 0 (the size of the request is divided by it before the address is
    looked at), when [decode] rejects the address, [read] and [write] return
    the timestamp they were given, as an ordinary result, and leave the
    device, its head track included, as it was. *)
Theorem rejected_request_returns_timestamp (fuel : nat) (h : HDD) (ts : float)
        (address size : Z) :
  _sector_size h <> 0 ->
  decode fuel h address = Done None ->
  read fuel h ts address size = Done (ts, h)
  /\ write fuel h ts address size = Done (ts, h).
Proof.
  intros Hss Hd. unfold read, write.
  replace (_sector_size h =? 0) with false by (symmetry; apply Z.eqb_neq; exact Hss).
  rewrite Hd. split; reflexivity.
Qed.

Lemma rejected_request_returns_timestamp_witness :
  read 3 hdd8 0.006 (30 * 512) 512 = Done (0.006%float, hdd8)
  /\ write 3 hdd8 0.006 (30 * 512) 512 = Done (0.006%float, hdd8).
Proof.
  apply (rejected_request_returns_timestamp 3 hdd8 0.006 (30 * 512) 512).
  - vm_compute. discriminate.
  - vm_compute. reflexivity.
Defined.

(** C7 as stated fails: no failure is reported.  In the scenario of section
    8, [decode] rejects address 30 * 512, and [read] at that address with
    timestamp 0.006 returns 0.006 and the device unchanged; 0.006 is also
    what the accepted [read (0, 0, 512)] returns: the value returned does
    not tell the rejected request from a served one.  [write] does the
    same. *)
Lemma rejected_read_looks_served :
  decode 3 hdd8 (30 * 512) = Done None
  /\ decode 3 hdd8 0 = Done (Some {| surface := 0; track := 0; sector := 0 |})
  /\ read 3 hdd8 0.006 (30 * 512) 512 = Done (0.006%float, hdd8)
  /\ write 3 hdd8 0.006 (30 * 512) 512 = Done (0.006%float, hdd8)
  /\ (exists h' : HDD, read 3 hdd8 0 0 512 = Done (0.006%float, h'))
  /\ (exists h' : HDD, write 3 hdd8 0 0 512 = Done (0.006%float, h')).
Proof.
  repeat apply conj; try (vm_compute; reflexivity);
    eexists; vm_compute; reflexivity.
Qed.

(** ** Rounding in binary64 *)

(** The operations of [float] are specified by [SFadd], [SFsub] and [SFmul]
    on [spec_float], which round through [binary_round].  What follows
    describes that rounding on integers, and derives that it is exact on the
    track numbers and monotone. *)

Lemma fexp_eq (x : Z) : fexp prec emax x = Z.max (x - 53) (-1074).
Proof. reflexivity. Qed.

Lemma pow2_pos (k : Z) : 0 <= k -> 0 < 2 ^ k.
Proof. intros H. apply Z.pow_pos_nonneg; lia. Qed.

Lemma pow2_succ (k : Z) : 0 <= k -> 2 ^ (k + 1) = 2 * 2 ^ k.
Proof. intros H. rewrite Z.pow_add_r by lia. lia. Qed.

Lemma digits_bounds (m : positive) :
  2 ^ (Z.pos (digits2_pos m) - 1) <= Z.pos m < 2 ^ Z.pos (digits2_pos m).
Proof.
  induction m as [p IH|p IH|]; cbn [digits2_pos].
  - rewrite Pos2Z.inj_succ. unfold Z.succ.
    replace (Z.pos (digits2_pos p) + 1 - 1) with (Z.pos (digits2_pos p) - 1 + 1)
      by lia.
    rewrite !pow2_succ by lia. lia.
  - rewrite Pos2Z.inj_succ. unfold Z.succ.
    replace (Z.pos (digits2_pos p) + 1 - 1) with (Z.pos (digits2_pos p) - 1 + 1)
      by lia.
    rewrite !pow2_succ by lia. lia.
  - simpl. lia.
Qed.

Lemma digits_unique (m : positive) (k : Z) :
  2 ^ (k - 1) <= Z.pos m < 2 ^ k -> Z.pos (digits2_pos m) = k.
Proof.
  intros H. pose proof (digits_bounds m) as B.
  set (d := Z.pos (digits2_pos m)) in *.
  assert (0 < k) as Hk.
  { destruct (Z_lt_le_dec 0 k) as [|Hk]; [assumption|].
    assert (2 ^ k <= 1) by
      (destruct (Z.eq_dec k 0) as [->|]; [simpl; lia|rewrite Z.pow_neg_r; lia]).
    lia. }
  destruct (Z.lt_trichotomy d k) as [L|[E|L]]; [|exact E|].
  - assert (2 ^ d <= 2 ^ (k - 1)) by (apply Z.pow_le_mono_r; lia). lia.
  - assert (2 ^ k <= 2 ^ (d - 1)) by (apply Z.pow_le_mono_r; lia). lia.
Qed.

Lemma div_pow_succ (N k : Z) : 0 <= k -> N / 2 ^ (k + 1) = N / 2 ^ k / 2.
Proof.
  intros H. rewrite pow2_succ, Z.mul_comm by lia.
  rewrite Z.div_div; [reflexivity| |lia]. pose proof (pow2_pos k H). lia.
Qed.

Lemma mod_pow_succ (N k : Z) :
  0 <= k -> N mod 2 ^ (k + 1) = N mod 2 ^ k + 2 ^ k * ((N / 2 ^ k) mod 2).
Proof.
  intros H. rewrite pow2_succ, Z.mul_comm by lia.
  pose proof (pow2_pos k H). apply Z.rem_mul_r; lia.
Qed.

Lemma shr_1_arith (m : Z) (r s : bool) :
  0 <= m ->
  shr_1 {| shr_m := m; shr_r := r; shr_s := s |}
  = {| shr_m := m / 2; shr_r := Z.odd m; shr_s := r || s |}.
Proof.
  intros Hm. rewrite <- Z.div2_div.
  destruct m as [|[q|q|]|q]; try lia; reflexivity.
Qed.

Lemma bool_eq_iff (a b : bool) : (a = true <-> b = true) -> a = b.
Proof. destruct a, b; intros [H1 H2]; auto; symmetry; auto. Qed.

Lemma shr_1_state (N k : Z) :
  0 <= N -> 0 <= k -> shr_1 (shr_state N k) = shr_state N (k + 1).
Proof.
  intros HN Hk. unfold shr_state.
  pose proof (pow2_pos k Hk) as Hp.
  rewrite shr_1_arith by (apply Z.div_pos; lia).
  rewrite div_pow_succ, mod_pow_succ, pow2_succ by lia.
  pose proof (Z.mod_pos_bound N (2 ^ k) Hp) as Hr.
  rewrite (Zmod_odd (N / 2 ^ k)).
  set (p := 2 ^ k) in *. set (r := N mod p) in *. set (m := N / p) in *.
  f_equal.
  - apply bool_eq_iff. rewrite Z.leb_le. destruct (Z.odd m); split; try nia;
      try discriminate; reflexivity.
  - apply bool_eq_iff.
    rewrite orb_true_iff, !negb_true_iff, !orb_false_iff, Z.leb_le, !Z.eqb_neq.
    destruct (Z.odd m); nia.
Qed.

Lemma shr_state_0 (N : Z) :
  shr_state N 0 = {| shr_m := N; shr_r := false; shr_s := false |}.
Proof.
  unfold shr_state. change (2 ^ 0) with 1. rewrite Z.div_1_r, Z.mod_1_r.
  reflexivity.
Qed.

Lemma iter_shr_state (N : Z) (p : positive) :
  0 <= N ->
  forall k, 0 <= k ->
    iter_pos shr_1 p (shr_state N k) = shr_state N (k + Z.pos p).
Proof.
  intros HN. induction p as [p IH|p IH|]; intros k Hk; cbn [iter_pos].
  - rewrite shr_1_state, !IH by lia. f_equal. lia.
  - rewrite !IH by lia. f_equal. lia.
  - apply shr_1_state; assumption.
Qed.

Lemma shr_spec (N e n : Z) :
  0 <= N -> 0 <= n ->
  shr {| shr_m := N; shr_r := false; shr_s := false |} e n
  = (shr_state N n, e + n).
Proof.
  intros HN Hn. unfold shr. destruct n as [|p|p]; try lia.
  - rewrite shr_state_0. f_equal. lia.
  - rewrite <- shr_state_0, iter_shr_state by lia. reflexivity.
Qed.

Lemma round_state (N k : Z) :
  0 <= N -> 0 <= k ->
  round_nearest_even (shr_m (shr_state N k)) (loc_of_shr_record (shr_state N k))
  = rne N k.
Proof.
  intros HN Hk. unfold shr_state, rne, loc_of_shr_record, round_nearest_even.
  cbn [shr_m].
  pose proof (pow2_pos k Hk) as Hp.
  pose proof (Z.mod_pos_bound N (2 ^ k) Hp) as Hr.
  set (p := 2 ^ k) in *. set (r := N mod p) in *. set (q := N / p) in *.
  destruct (Z.leb_spec p (2 * r)); destruct (Z.eqb_spec r 0);
    destruct (Z.eqb_spec (2 * r) p); destruct (Z.ltb_spec (2 * r) p);
    cbn [negb orb]; try lia; reflexivity.
Qed.

(** *** Rounding to nearest, ties to even, on integers *)

Lemma rne_cases (N k : Z) :
  0 <= k ->
  exists q r, N = 2 ^ k * q + r /\ 0 <= r < 2 ^ k /\ q = N / 2 ^ k
              /\ (rne N k = q \/ rne N k = q + 1)
              /\ (r = 0 -> rne N k = q)
              /\ (2 * r < 2 ^ k -> rne N k = q)
              /\ (2 ^ k < 2 * r -> rne N k = q + 1)
              /\ (Z.even (rne N k) = false -> 2 * r <> 2 ^ k).
Proof.
  intros Hk. pose proof (pow2_pos k Hk) as Hp.
  exists (N / 2 ^ k), (N mod 2 ^ k).
  pose proof (Z.mod_pos_bound N (2 ^ k) Hp) as Hr.
  pose proof (Z.div_mod N (2 ^ k)) as Hd.
  unfold rne.
  set (p := 2 ^ k) in *. set (r := N mod p) in *. set (q := N / p) in *.
  split; [lia|]. split; [lia|]. split; [reflexivity|].
  destruct (Z.ltb_spec (2 * r) p); destruct (Z.eqb_spec (2 * r) p);
    try lia.
  - destruct (Z.even q) eqn:Eq.
    + repeat split; try lia; auto. intros H1. congruence.
    + repeat split; try lia; auto.
      intros H1. rewrite Z.even_add, Eq in H1. discriminate.
Qed.

Lemma rne_0 (N : Z) : rne N 0 = N.
Proof.
  unfold rne. change (2 ^ 0) with 1. rewrite Z.div_1_r, Z.mod_1_r. reflexivity.
Qed.

Lemma rne_nonneg (N k : Z) : 0 <= N -> 0 <= k -> 0 <= rne N k.
Proof.
  intros HN Hk. destruct (rne_cases N k Hk) as (q & r & E & Hr & Eq & [H|H] & _);
    assert (0 <= q) by (rewrite Eq; apply Z.div_pos; [lia|apply pow2_pos; lia]);
    lia.
Qed.

Lemma rne_le (N k c : Z) : 0 <= k -> N <= c * 2 ^ k -> rne N k <= c.
Proof.
  intros Hk H. pose proof (pow2_pos k Hk) as Hp.
  destruct (rne_cases N k Hk) as (q & r & E & Hr & _ & Hc & H0 & _).
  destruct (Z.eq_dec r 0) as [Er|Er]; [rewrite (H0 Er); nia|].
  assert (q < c) by nia. lia.
Qed.

Lemma rne_ge (N k c : Z) : 0 <= k -> c * 2 ^ k <= N -> c <= rne N k.
Proof.
  intros Hk H. pose proof (pow2_pos k Hk) as Hp.
  destruct (rne_cases N k Hk) as (q & r & E & Hr & _ & Hc & _).
  assert (c <= q) by nia. lia.
Qed.

Lemma rne_mono (N N' k : Z) : 0 <= k -> N <= N' -> rne N k <= rne N' k.
Proof.
  intros Hk H. pose proof (pow2_pos k Hk) as Hp.
  assert (N / 2 ^ k <= N' / 2 ^ k) as Hq by (apply Z.div_le_mono; lia).
  unfold rne.
  pose proof (Z.mod_pos_bound N (2 ^ k) Hp) as Hr.
  pose proof (Z.mod_pos_bound N' (2 ^ k) Hp) as Hr'.
  pose proof (Z.div_mod N (2 ^ k)) as Hd.
  pose proof (Z.div_mod N' (2 ^ k)) as Hd'.
  set (p := 2 ^ k) in *.
  set (r := N mod p) in *. set (q := N / p) in *.
  set (r' := N' mod p) in *. set (q' := N' / p) in *.
  destruct (Z.eq_dec q q') as [Eq|Ne].
  - rewrite <- Eq in *. assert (r <= r') by nia.
    destruct (Z.ltb_spec (2 * r) p); destruct (Z.eqb_spec (2 * r) p);
      destruct (Z.ltb_spec (2 * r') p); destruct (Z.eqb_spec (2 * r') p);
      destruct (Z.even q); lia.
  - assert (q + 1 <= q') by lia.
    destruct (Z.ltb_spec (2 * r) p); destruct (Z.eqb_spec (2 * r) p);
      destruct (Z.ltb_spec (2 * r') p); destruct (Z.eqb_spec (2 * r') p);
      destruct (Z.even q); destruct (Z.even q'); lia.
Qed.

Lemma rne_double (N k : Z) : 0 <= k -> rne (2 * N) (k + 1) = rne N k.
Proof.
  intros Hk. pose proof (pow2_pos k Hk) as Hp. unfold rne.
  rewrite pow2_succ by lia.
  rewrite Z.div_mul_cancel_l, Z.mul_mod_distr_l by lia.
  set (p := 2 ^ k) in *. set (r := N mod p). set (q := N / p).
  destruct (Z.ltb_spec (2 * r) p); destruct (Z.eqb_spec (2 * r) p);
    destruct (Z.ltb_spec (2 * (2 * r)) (2 * p));
    destruct (Z.eqb_spec (2 * (2 * r)) (2 * p)); try lia; reflexivity.
Qed.

Lemma rne_shift (N k j : Z) :
  0 <= k -> 0 <= j -> rne (N * 2 ^ j) (k + j) = rne N k.
Proof.
  intros Hk Hj. revert N. pattern j. apply natlike_ind; [| |exact Hj].
  - intros N. rewrite Z.mul_1_r, Z.add_0_r. reflexivity.
  - intros x Hx IH N. unfold Z.succ.
    rewrite pow2_succ by lia.
    replace (N * (2 * 2 ^ x)) with (2 * (N * 2 ^ x)) by lia.
    replace (k + (x + 1)) with (k + x + 1) by lia.
    rewrite rne_double by lia. apply IH.
Qed.

(** *** [binary_round] rounds the mantissa at the exponent of the value *)

Lemma iter_xO (m d : positive) : Z.pos (Pos.iter xO m d) = Z.pos m * 2 ^ Z.pos d.
Proof.
  revert m. induction d as [|d IH] using Pos.peano_ind; intros m.
  - simpl. lia.
  - rewrite Pos.iter_succ, Pos2Z.inj_xO, IH, Pos2Z.inj_succ.
    unfold Z.succ. rewrite pow2_succ by lia. lia.
Qed.

Lemma digits_iter_xO (m d : positive) :
  Z.pos (digits2_pos (Pos.iter xO m d)) = Z.pos (digits2_pos m) + Z.pos d.
Proof.
  revert m. induction d as [|d IH] using Pos.peano_ind; intros m.
  - simpl. lia.
  - rewrite Pos.iter_succ. cbn [digits2_pos].
    rewrite Pos2Z.inj_succ, IH, Pos2Z.inj_succ. lia.
Qed.

Lemma binary_round_aux_spec (s : bool) (m : positive) (e : Z) :
  e <= rnd_exp m e ->
  binary_round_aux prec emax s (Z.pos m) e loc_Exact
  = pack s (rne (Z.pos m) (rnd_exp m e - e)) (rnd_exp m e).
Proof.
  intros H. unfold binary_round_aux, shr_fexp at 1.
  cbn [Zdigits2 shr_record_of_loc]. fold (rnd_exp m e).
  rewrite shr_spec by lia. rewrite round_state by lia.
  replace (e + (rnd_exp m e - e)) with (rnd_exp m e) by lia.
  reflexivity.
Qed.

Lemma binary_round_spec (s : bool) (m : positive) (e : Z) :
  binary_round prec emax s m e = pack s (rnd_man m e) (rnd_exp m e).
Proof.
  unfold binary_round, shl_align, rnd_man. fold (rnd_exp m e).
  destruct (rnd_exp m e - e) as [|d|d] eqn:Ed.
  - rewrite binary_round_aux_spec by lia.
    replace (Z.min e (rnd_exp m e)) with e by lia.
    rewrite Ed, Z.sub_diag, Z.mul_1_r. reflexivity.
  - rewrite binary_round_aux_spec by lia.
    replace (Z.min e (rnd_exp m e)) with e by lia.
    rewrite Ed, Z.sub_diag, Z.mul_1_r. reflexivity.
  - assert (rnd_exp (Pos.iter xO m d) (rnd_exp m e) = rnd_exp m e) as EE.
    { unfold rnd_exp in *. rewrite digits_iter_xO. f_equal. lia. }
    rewrite binary_round_aux_spec by lia. rewrite EE.
    replace (Z.min e (rnd_exp m e)) with (rnd_exp m e) by lia.
    rewrite iter_xO.
    replace (e - rnd_exp m e) with (Z.pos d) by lia. reflexivity.
Qed.

Lemma shr_none (mrs : shr_record) (e n : Z) : n <= 0 -> shr mrs e n = (mrs, e).
Proof. intros H. destruct n; try reflexivity. lia. Qed.

Lemma pack_zero (s : bool) (E : Z) : -1074 <= E -> pack s 0 E = S754_zero s.
Proof.
  intros H. unfold pack, shr_fexp. cbn [Zdigits2 shr_record_of_loc].
  rewrite shr_none by (rewrite fexp_eq; lia). reflexivity.
Qed.

Lemma pack_small (s : bool) (q : positive) (E : Z) :
  -1074 <= E -> Z.pos q < 2 ^ 53 -> (2 ^ 52 <= Z.pos q \/ E = -1074) ->
  pack s (Z.pos q) E
  = if E <=? 971 then S754_finite s q E else S754_infinity s.
Proof.
  intros HE Hq Hn. unfold pack, shr_fexp. cbn [Zdigits2 shr_record_of_loc].
  pose proof (digits_bounds q) as B.
  assert (Z.pos (digits2_pos q) <= 53) as Hd.
  { destruct (Z_le_gt_dec (Z.pos (digits2_pos q)) 53) as [|G]; [assumption|].
    assert (2 ^ 53 <= 2 ^ (Z.pos (digits2_pos q) - 1))
      by (apply Z.pow_le_mono_r; lia). lia. }
  rewrite shr_none; [reflexivity|].
  rewrite fexp_eq. destruct Hn as [Hn|Hn]; [|lia].
  assert (Z.pos (digits2_pos q) = 53) by (apply digits_unique; lia). lia.
Qed.

Lemma pack_carry (s : bool) (E : Z) :
  -1074 <= E ->
  pack s (2 ^ 53) E
  = if E + 1 <=? 971 then S754_finite s 4503599627370496 (E + 1)
    else S754_infinity s.
Proof.
  intros HE. unfold pack, shr_fexp. cbn [shr_record_of_loc].
  change (Zdigits2 (2 ^ 53)) with 54. rewrite fexp_eq.
  replace (Z.max (54 + E - 53) (-1074) - E) with 1 by lia.
  reflexivity.
Qed.

(** *** The mantissa and the exponent chosen *)

Lemma rnd_exp_eq (m : positive) (e : Z) :
  rnd_exp m e = Z.max (Z.pos (digits2_pos m) + e - 53) (-1074).
Proof. reflexivity. Qed.

Lemma pow2_le (a b : Z) : 0 <= a <= b -> 2 ^ a <= 2 ^ b.
Proof. intros H. apply Z.pow_le_mono_r; lia. Qed.

Lemma pow2_add (a b : Z) : 0 <= a -> 0 <= b -> 2 ^ (a + b) = 2 ^ a * 2 ^ b.
Proof. intros. apply Z.pow_add_r; lia. Qed.

Lemma rnd_man_bounds (m : positive) (e : Z) :
  let d := Z.pos (digits2_pos m) in
  let E := rnd_exp m e in
  let q := rnd_man m e in
  0 <= q <= 2 ^ 53
  /\ (-1074 < E -> 2 ^ 52 <= q)
  /\ q <= 2 ^ (Z.max 0 (d + e - E)).
Proof.
  intros d E q. pose proof (rnd_exp_eq m e) as HE. fold d E in HE.
  pose proof (digits_bounds m) as B. fold d in B.
  unfold q, rnd_man. fold E.
  set (a := Z.min e E).
  assert (0 <= e - a) as H1 by lia. assert (0 <= E - a) as H2 by lia.
  pose proof (pow2_pos (e - a) H1) as P1.
  assert (rne (Z.pos m * 2 ^ (e - a)) (E - a) <= 2 ^ Z.max 0 (d + e - E)) as Hup.
  { apply rne_le; [lia|].
    rewrite <- pow2_add by lia.
    assert (2 ^ d * 2 ^ (e - a) <= 2 ^ (Z.max 0 (d + e - E) + (E - a))).
    { rewrite <- pow2_add by lia. apply pow2_le. lia. }
    nia. }
  split; [split|split].
  - apply rne_nonneg; nia.
  - assert (2 ^ Z.max 0 (d + e - E) <= 2 ^ 53) by (apply pow2_le; lia). lia.
  - intros Hn. apply rne_ge; [lia|].
    rewrite <- pow2_add by lia.
    assert (2 ^ (52 + (E - a)) = 2 ^ (d - 1) * 2 ^ (e - a)) as ->.
    { rewrite <- pow2_add by lia. f_equal. lia. }
    nia.
  - exact Hup.
Qed.

Lemma key_top_pos : 0 < key_top.
Proof. reflexivity. Qed.

Lemma binary_round_key (s : bool) (m : positive) (e : Z) :
  key (binary_round prec emax s m e)
  = (if s then - val_key (rnd_man m e) (rnd_exp m e)
     else val_key (rnd_man m e) (rnd_exp m e))
  /\ binary_round prec emax s m e <> S754_nan
  /\ binary_round prec emax s m e <> S754_infinity (negb s).
Proof.
  rewrite binary_round_spec.
  destruct (rnd_man_bounds m e) as ((H0 & H1) & H2 & _).
  pose proof (rnd_exp_eq m e) as HE.
  set (q := rnd_man m e) in *. set (E := rnd_exp m e) in *.
  assert (-1074 <= E) as HE' by lia.
  unfold val_key.
  destruct (Z.eqb_spec q 0) as [->|Hq0].
  - rewrite pack_zero by lia. destruct s; repeat split; discriminate.
  - destruct (Z.eqb_spec q (2 ^ 53)) as [->|Hq1].
    + rewrite pack_carry by lia.
      destruct (Z.leb_spec (E + 1) 971).
      * cbn [key]. replace (E + 1 + 1074) with (1 + (E + 1074)) by lia.
        rewrite (pow2_add 1) by lia. change (2 ^ 1) with 2.
        change (Z.pos 4503599627370496) with (2 ^ 52).
        change (2 ^ 53) with (2 * 2 ^ 52).
        destruct s; repeat split; try discriminate; lia.
      * destruct s; repeat split; discriminate.
    + destruct q as [|q|q]; try lia.
      rewrite pack_small by lia.
      destruct (Z.leb_spec E 971).
      * destruct s; repeat split; discriminate.
      * destruct s; repeat split; discriminate.
Qed.

Lemma val_key_range (q E : Z) :
  -1074 <= E -> 0 <= q <= 2 ^ 53 -> 0 <= val_key q E <= key_top.
Proof.
  intros HE Hq. unfold val_key. pose proof key_top_pos as HC.
  destruct (Z.eqb_spec q 0); [lia|].
  destruct (Z.eqb_spec q (2 ^ 53)) as [->|Hq1].
  - destruct (Z.leb_spec (E + 1) 971); [|lia].
    rewrite <- pow2_add by lia.
    split; [apply Z.pow_nonneg; lia|apply pow2_le; lia].
  - destruct (Z.leb_spec E 971); [|lia].
    pose proof (pow2_pos (E + 1074) ltac:(lia)).
    assert (2 ^ 53 * 2 ^ (E + 1074) <= key_top)
      by (rewrite <- pow2_add by lia; apply pow2_le; lia).
    nia.
Qed.

Lemma val_key_mono (q1 q2 E : Z) :
  -1074 <= E -> 0 <= q1 <= q2 -> q2 <= 2 ^ 53 ->
  val_key q1 E <= val_key q2 E.
Proof.
  intros HE Hq Hq2.
  pose proof (val_key_range q1 E HE ltac:(lia)) as R1.
  pose proof (val_key_range q2 E HE ltac:(lia)) as R2.
  unfold val_key in *.
  pose proof (pow2_pos (E + 1074) ltac:(lia)).
  assert (q1 * 2 ^ (E + 1074) <= q2 * 2 ^ (E + 1074)) as Hv by nia.
  set (v1 := q1 * 2 ^ (E + 1074)) in *. set (v2 := q2 * 2 ^ (E + 1074)) in *.
  set (T := 2 ^ 53) in *.
  destruct (Z.eqb_spec q1 0); [lia|].
  destruct (Z.eqb_spec q2 0); [lia|].
  destruct (Z.eqb_spec q1 T); destruct (Z.eqb_spec q2 T);
    destruct (Z.leb_spec (E + 1) 971); destruct (Z.leb_spec E 971);
    lia.
Qed.

Lemma val_key_cross (q1 q2 E1 E2 D1 D2 : Z) :
  -1074 <= E1 < E2 ->
  0 <= q1 <= 2 ^ 53 -> q1 <= 2 ^ (Z.max 0 (D1 - E1)) ->
  2 ^ 52 <= q2 <= 2 ^ 53 ->
  D1 < D2 -> E2 = D2 - 53 ->
  val_key q1 E1 <= val_key q2 E2.
Proof.
  intros HE Hq1 Hb Hq2 HD HE2.
  pose proof (val_key_range q1 E1 ltac:(lia) Hq1) as R1.
  pose proof (val_key_range q2 E2 ltac:(lia) ltac:(lia)) as R2.
  unfold val_key in *.
  assert (q1 * 2 ^ (E1 + 1074) <= q2 * 2 ^ (E2 + 1074)) as Hv.
  { pose proof (pow2_pos (E1 + 1074) ltac:(lia)).
    pose proof (pow2_pos (E2 + 1074) ltac:(lia)).
    assert (2 ^ Z.max 0 (D1 - E1) * 2 ^ (E1 + 1074)
            <= 2 ^ 52 * 2 ^ (E2 + 1074)).
    { rewrite <- !pow2_add by lia. apply pow2_le. lia. }
    nia. }
  assert (0 < 2 ^ 52 < 2 ^ 53) as HT by (split; reflexivity).
  clear Hb HD HE2.
  set (v1 := q1 * 2 ^ (E1 + 1074)) in *. set (v2 := q2 * 2 ^ (E2 + 1074)) in *.
  set (T := 2 ^ 53) in *. set (T' := 2 ^ 52) in *.
  destruct (Z.eqb_spec q1 0); [lia|].
  destruct (Z.eqb_spec q2 0); [lia|].
  destruct (Z.eqb_spec q1 T); destruct (Z.eqb_spec q2 T);
    destruct (Z.leb_spec (E1 + 1) 971); destruct (Z.leb_spec E1 971);
    destruct (Z.leb_spec (E2 + 1) 971); destruct (Z.leb_spec E2 971);
    lia.
Qed.

Lemma digits_mono (m1 m2 : positive) :
  Z.pos m1 <= Z.pos m2 -> Z.pos (digits2_pos m1) <= Z.pos (digits2_pos m2).
Proof.
  intros H. pose proof (digits_bounds m1) as B1.
  pose proof (digits_bounds m2) as B2.
  destruct (Z_le_gt_dec (Z.pos (digits2_pos m1)) (Z.pos (digits2_pos m2)))
    as [|G]; [assumption|].
  assert (2 ^ Z.pos (digits2_pos m2) <= 2 ^ (Z.pos (digits2_pos m1) - 1))
    by (apply pow2_le; lia).
  lia.
Qed.

(** Rounding is monotone at a given exponent. *)
Lemma round_mono (m1 m2 : positive) (e : Z) :
  Z.pos m1 <= Z.pos m2 ->
  val_key (rnd_man m1 e) (rnd_exp m1 e) <= val_key (rnd_man m2 e) (rnd_exp m2 e).
Proof.
  intros H. pose proof (digits_mono m1 m2 H) as Hd.
  destruct (rnd_man_bounds m1 e) as (Ha1 & Hb1 & Hc1).
  destruct (rnd_man_bounds m2 e) as (Ha2 & Hb2 & Hc2).
  pose proof (rnd_exp_eq m1 e) as E1. pose proof (rnd_exp_eq m2 e) as E2.
  destruct (Z.eq_dec (rnd_exp m1 e) (rnd_exp m2 e)) as [Eq|Ne].
  - rewrite <- Eq. apply val_key_mono; [lia| |lia].
    split; [lia|]. unfold rnd_man. rewrite <- Eq.
    apply rne_mono; [lia|].
    apply Z.mul_le_mono_nonneg_r; [|lia].
    apply Z.pow_nonneg. lia.
  - apply (val_key_cross _ _ _ _ (Z.pos (digits2_pos m1) + e)
             (Z.pos (digits2_pos m2) + e)); try lia.
Qed.

(** The result depends on the value only, not on how it is written. *)
Lemma binary_round_shift (s : bool) (m m' : positive) (e j : Z) :
  0 <= j -> Z.pos m' = Z.pos m * 2 ^ j ->
  binary_round prec emax s m' (e - j) = binary_round prec emax s m e.
Proof.
  intros Hj Hm. rewrite !binary_round_spec.
  pose proof (digits_bounds m) as B.
  pose proof (pow2_pos j Hj) as Pj.
  assert (Z.pos (digits2_pos m') = Z.pos (digits2_pos m) + j) as Hd.
  { apply digits_unique. rewrite Hm.
    replace (Z.pos (digits2_pos m) + j - 1)
      with (Z.pos (digits2_pos m) - 1 + j) by lia.
    rewrite !pow2_add by lia. nia. }
  assert (rnd_exp m' (e - j) = rnd_exp m e) as HE
    by (unfold rnd_exp; rewrite Hd; f_equal; lia).
  f_equal; [|exact HE].
  unfold rnd_man. rewrite HE, Hm.
  set (E := rnd_exp m e).
  set (a := Z.min e E). set (a' := Z.min (e - j) E).
  replace (Z.pos m * 2 ^ j * 2 ^ (e - j - a'))
    with (Z.pos m * 2 ^ (e - a) * 2 ^ (a - a')).
  - replace (E - a') with (E - a + (a - a')) by lia.
    apply rne_shift; lia.
  - rewrite <- !Z.mul_assoc, <- !pow2_add by lia. do 2 f_equal. lia.
Qed.

Lemma binary_normalize_shift (z e j : Z) :
  0 <= j ->
  binary_normalize prec emax (z * 2 ^ j) (e - j) false
  = binary_normalize prec emax z e false.
Proof.
  intros Hj. pose proof (pow2_pos j Hj) as Pj.
  destruct z as [|p|p].
  - reflexivity.
  - destruct (Z.pos p * 2 ^ j) as [|p'|p'] eqn:E; try lia.
    cbn [binary_normalize]. apply binary_round_shift; [exact Hj|].
    symmetry. exact E.
  - destruct (Z.neg p * 2 ^ j) as [|p'|p'] eqn:E; try lia.
    cbn [binary_normalize]. apply binary_round_shift; [exact Hj|]. lia.
Qed.

(** A canonical number is rounded to itself. *)
Lemma bounded_facts (m : positive) (e : Z) :
  bounded prec emax m e = true ->
  -1074 <= e <= 971 /\ Z.pos m < 2 ^ 53 /\ (2 ^ 52 <= Z.pos m \/ e = -1074)
  /\ rnd_exp m e = e.
Proof.
  unfold bounded, canonical_mantissa. intros H.
  apply andb_prop in H. destruct H as [H1 H2].
  apply Z.eqb_eq in H1. apply Z.leb_le in H2.
  change (emax - prec) with 971 in H2. rewrite fexp_eq in H1.
  pose proof (digits_bounds m) as B.
  set (d := Z.pos (digits2_pos m)) in *.
  assert (2 ^ d <= 2 ^ 53) by (apply pow2_le; lia).
  split; [lia|]. split; [lia|]. split.
  - destruct (Z.eq_dec e (-1074)) as [|Ne]; [right; assumption|left].
    assert (d = 53) as Ed by lia. rewrite Ed in B. exact (proj1 B).
  - unfold rnd_exp. rewrite fexp_eq. exact H1.
Qed.

Lemma binary_round_canonical (s : bool) (m : positive) (e : Z) :
  bounded prec emax m e = true ->
  binary_round prec emax s m e = S754_finite s m e.
Proof.
  intros H. destruct (bounded_facts m e H) as (He & Hm & Hn & HE).
  rewrite binary_round_spec. unfold rnd_man. rewrite HE.
  replace (Z.min e e) with e by lia. rewrite !Z.sub_diag.
  change (2 ^ 0) with 1. rewrite Z.mul_1_r, rne_0.
  rewrite pack_small by lia.
  replace (e <=? 971) with true by (symmetry; apply Z.leb_le; lia).
  reflexivity.
Qed.

Lemma binary_normalize_key_range (z e : Z) :
  (0 <= z -> 0 <= key (binary_normalize prec emax z e false) <= key_top)
  /\ (z <= 0 -> - key_top <= key (binary_normalize prec emax z e false) <= 0).
Proof.
  pose proof key_top_pos as HC.
  destruct z as [|p|p]; cbn [binary_normalize key].
  - lia.
  - rewrite (proj1 (binary_round_key false p e)).
    destruct (rnd_man_bounds p e) as (Ha & _).
    pose proof (rnd_exp_eq p e).
    pose proof (val_key_range (rnd_man p e) (rnd_exp p e) ltac:(lia) Ha). lia.
  - rewrite (proj1 (binary_round_key true p e)).
    destruct (rnd_man_bounds p e) as (Ha & _).
    pose proof (rnd_exp_eq p e).
    pose proof (val_key_range (rnd_man p e) (rnd_exp p e) ltac:(lia) Ha). lia.
Qed.

Lemma binary_normalize_mono (z1 z2 e : Z) :
  z1 <= z2 ->
  key (binary_normalize prec emax z1 e false)
  <= key (binary_normalize prec emax z2 e false).
Proof.
  intros H.
  destruct (binary_normalize_key_range z1 e) as [P1 N1].
  destruct (binary_normalize_key_range z2 e) as [P2 N2].
  destruct z1 as [|p1|p1]; destruct z2 as [|p2|p2]; try lia.
  - cbn [binary_normalize].
    rewrite (proj1 (binary_round_key false p1 e)),
      (proj1 (binary_round_key false p2 e)).
    apply round_mono. lia.
  - cbn [binary_normalize].
    rewrite (proj1 (binary_round_key true p1 e)),
      (proj1 (binary_round_key true p2 e)).
    assert (Z.pos p2 <= Z.pos p1) as H' by lia.
    pose proof (round_mono p2 p1 e H'). lia.
Qed.

Lemma binary_normalize_not_nan (z e : Z) :
  binary_normalize prec emax z e false <> S754_nan.
Proof.
  destruct z as [|p|p]; cbn [binary_normalize]; [discriminate| |];
    apply binary_round_key.
Qed.

(** *** The operations on canonical numbers *)

Lemma binary_normalize_key_canonical (s : bool) (m : positive) (e : Z) :
  bounded prec emax m e = true ->
  binary_normalize prec emax (key (S754_finite s m e)) (-1074) false
  = S754_finite s m e.
Proof.
  intros H. destruct (bounded_facts m e H) as (He & _).
  cbn [key]. replace (-1074) with (e - (e + 1074)) by lia.
  replace (if s then - (Z.pos m * 2 ^ (e + 1074)) else Z.pos m * 2 ^ (e + 1074))
    with ((if s then Z.neg m else Z.pos m) * 2 ^ (e + 1074))
    by (destruct s; lia).
  rewrite binary_normalize_shift by lia.
  destruct s; cbn [binary_normalize]; apply binary_round_canonical; exact H.
Qed.

Lemma shl_align_fst (m : positive) (e e' : Z) :
  e' <= e -> Z.pos (fst (shl_align m e e')) = Z.pos m * 2 ^ (e - e').
Proof.
  intros H. unfold shl_align.
  destruct (e' - e) as [|d|d] eqn:Ed; try lia; cbn [fst].
  - replace (e - e') with 0 by lia. lia.
  - rewrite iter_xO. f_equal. f_equal. lia.
Qed.

Lemma aligned_key (s : bool) (m : positive) (e ez : Z) :
  -1074 <= ez <= e ->
  cond_Zopp s (Z.pos (fst (shl_align m e ez))) * 2 ^ (ez + 1074)
  = key (S754_finite s m e).
Proof.
  intros H. rewrite shl_align_fst by lia. cbn [key].
  replace (e + 1074) with (e - ez + (ez + 1074)) by lia.
  rewrite (pow2_add (e - ez) (ez + 1074)) by lia.
  destruct s; cbn [cond_Zopp]; ring.
Qed.

Lemma SFadd_finite (sx : bool) (mx : positive) (ex : Z)
      (sy : bool) (my : positive) (ey : Z) :
  bounded prec emax mx ex = true -> bounded prec emax my ey = true ->
  SFadd prec emax (S754_finite sx mx ex) (S754_finite sy my ey)
  = binary_normalize prec emax
      (key (S754_finite sx mx ex) + key (S754_finite sy my ey)) (-1074) false.
Proof.
  intros Hx Hy.
  destruct (bounded_facts mx ex Hx) as (Hex & _).
  destruct (bounded_facts my ey Hy) as (Hey & _).
  cbn [SFadd]. set (ez := Z.min ex ey).
  rewrite <- (aligned_key sx mx ex ez), <- (aligned_key sy my ey ez) by lia.
  rewrite <- Z.mul_add_distr_r.
  replace (-1074) with (ez - (ez + 1074)) by lia.
  rewrite binary_normalize_shift by lia. reflexivity.
Qed.

Lemma SFsub_finite (sx : bool) (mx : positive) (ex : Z)
      (sy : bool) (my : positive) (ey : Z) :
  bounded prec emax mx ex = true -> bounded prec emax my ey = true ->
  SFsub prec emax (S754_finite sx mx ex) (S754_finite sy my ey)
  = binary_normalize prec emax
      (key (S754_finite sx mx ex) - key (S754_finite sy my ey)) (-1074) false.
Proof.
  intros Hx Hy.
  destruct (bounded_facts mx ex Hx) as (Hex & _).
  destruct (bounded_facts my ey Hy) as (Hey & _).
  cbn [SFsub]. set (ez := Z.min ex ey).
  rewrite <- (aligned_key sx mx ex ez), <- (aligned_key sy my ey ez) by lia.
  rewrite <- Z.mul_sub_distr_r.
  replace (-1074) with (ez - (ez + 1074)) by lia.
  rewrite binary_normalize_shift by lia. reflexivity.
Qed.

Lemma binary_round_aux_round (s : bool) (m : positive) (e : Z) :
  e <= rnd_exp m e ->
  binary_round_aux prec emax s (Z.pos m) e loc_Exact
  = binary_round prec emax s m e.
Proof.
  intros H. rewrite binary_round_aux_spec, binary_round_spec by exact H.
  unfold rnd_man. replace (Z.min e (rnd_exp m e)) with e by lia.
  rewrite Z.sub_diag. change (2 ^ 0) with 1. rewrite Z.mul_1_r. reflexivity.
Qed.

Lemma SFmul_finite (mx : positive) (ex : Z) (my : positive) (ey : Z) :
  bounded prec emax mx ex = true -> 2 ^ 52 <= Z.pos mx ->
  SFmul prec emax (S754_finite false mx ex) (S754_finite false my ey)
  = binary_normalize prec emax
      (key (S754_finite false mx ex) * Z.pos my) (ey - 1074) false.
Proof.
  intros Hx Hn. destruct (bounded_facts mx ex Hx) as (Hex & _).
  cbn [SFmul xorb key].
  rewrite binary_round_aux_round.
  - replace (ey - 1074) with (ex + ey - (ex + 1074)) by lia.
    replace (Z.pos mx * 2 ^ (ex + 1074) * Z.pos my)
      with (Z.pos (mx * my) * 2 ^ (ex + 1074)) by lia.
    rewrite binary_normalize_shift by lia. reflexivity.
  - rewrite rnd_exp_eq.
    assert (53 <= Z.pos (digits2_pos (mx * my))); [|lia].
    assert (Z.pos (digits2_pos 4503599627370496) = 53) as <- by reflexivity.
    apply digits_mono. change (Z.pos 4503599627370496) with (2 ^ 52). nia.
Qed.

(** *** The order of binary64 is the order of the keys *)

Lemma canonical_lt (m1 : positive) (e1 : Z) (m2 : positive) (e2 : Z) :
  bounded prec emax m1 e1 = true -> bounded prec emax m2 e2 = true ->
  e1 < e2 -> Z.pos m1 * 2 ^ (e1 + 1074) < Z.pos m2 * 2 ^ (e2 + 1074).
Proof.
  intros H1 H2 L.
  destruct (bounded_facts m1 e1 H1) as (He1 & Hm1 & _).
  destruct (bounded_facts m2 e2 H2) as (He2 & Hm2 & Hn2 & _).
  destruct Hn2 as [Hn2|]; [|lia].
  pose proof (pow2_pos (e1 + 1074) ltac:(lia)).
  pose proof (pow2_pos (e2 + 1074) ltac:(lia)).
  assert (2 ^ 53 * 2 ^ (e1 + 1074) <= 2 ^ 52 * 2 ^ (e2 + 1074))
    by (rewrite <- !pow2_add by lia; apply pow2_le; lia).
  nia.
Qed.

Lemma key_finite_range (s : bool) (m : positive) (e : Z) :
  bounded prec emax m e = true ->
  - key_top < key (S754_finite s m e) < key_top
  /\ 0 < Z.pos m * 2 ^ (e + 1074).
Proof.
  intros H. destruct (bounded_facts m e H) as (He & Hm & _).
  pose proof (pow2_pos (e + 1074) ltac:(lia)).
  assert (2 ^ 53 * 2 ^ (e + 1074) <= key_top)
    by (rewrite <- !pow2_add by lia; apply pow2_le; lia).
  cbn [key]. destruct s; nia.
Qed.

Lemma SFcompare_key (x y : spec_float) :
  valid_binary x = true -> valid_binary y = true ->
  SFcompare x y = Some Gt -> key y < key x.
Proof.
  intros Vx Vy.
  pose proof key_top_pos as HC.
  destruct x as [sx|sx| |sx mx ex]; destruct y as [sy|sy| |sy my ey];
    cbn [SFcompare valid_binary] in *; try discriminate;
    try (pose proof (key_finite_range sx mx ex Vx));
    try (pose proof (key_finite_range sy my ey Vy)).
  - destruct sy; [|discriminate]. intros _. cbn [key] in *. lia.
  - destruct sy; [|discriminate]. intros _. cbn [key] in *. lia.
  - destruct sx; [discriminate|]. intros _. cbn [key]. lia.
  - destruct sx, sy; try discriminate. intros _. cbn [key]. lia.
  - destruct sx; [discriminate|]. intros _. cbn [key] in *. lia.
  - destruct sx; [discriminate|]. intros _. cbn [key] in *. lia.
  - destruct sy; [|discriminate]. intros _. cbn [key] in *. lia.
  - destruct sx, sy; cbn [key] in *; try discriminate.
    + destruct (Z.compare_spec ex ey) as [E|L|G]; try discriminate.
      * subst ey. rewrite Pos.compare_cont_spec. cbn [Pos.switch_Eq].
        intros E. injection E as E.
        destruct (Pos.compare_spec mx my) as [|L|G]; try discriminate.
        pose proof (pow2_pos (ex + 1074)).
        destruct (bounded_facts mx ex Vx) as (He & _).
        assert (Z.pos mx < Z.pos my) by lia. nia.
      * intros _. pose proof (canonical_lt mx ex my ey Vx Vy L). lia.
    + intros _. lia.
    + destruct (Z.compare_spec ex ey) as [E|L|G]; try discriminate.
      * subst ey. rewrite Pos.compare_cont_spec. cbn [Pos.switch_Eq].
        intros E. injection E as E.
        destruct (Pos.compare_spec mx my) as [|L|G]; try discriminate.
        pose proof (pow2_pos (ex + 1074)).
        destruct (bounded_facts mx ex Vx) as (He & _).
        assert (Z.pos my < Z.pos mx) by lia. nia.
      * intros _. pose proof (canonical_lt my ey mx ex Vy Vx G). lia.
Qed.

Lemma SFleb_key (x y : spec_float) :
  valid_binary x = true -> valid_binary y = true ->
  x <> S754_nan -> y <> S754_nan ->
  key x <= key y -> SFleb x y = true.
Proof.
  intros Vx Vy Nx Ny H. unfold SFleb.
  destruct (SFcompare x y) as [[| |]|] eqn:E; try reflexivity.
  - pose proof (SFcompare_key x y Vx Vy E). lia.
  - destruct x, y; try discriminate; congruence.
Qed.

(** *** Integers in binary64 *)

Lemma SFabs_binary_round (s : bool) (m : positive) (e : Z) :
  SFabs (binary_round prec emax s m e) = SFabs (binary_round prec emax false m e).
Proof.
  unfold binary_round, binary_round_aux.
  destruct (shl_align m e _) as [mz ez].
  destruct (shr_fexp prec emax (Z.pos mz) ez loc_Exact) as [mrs e'].
  destruct (shr_fexp prec emax _ e' loc_Exact) as [mrs' e''].
  destruct (shr_m mrs') as [|q|q]; try reflexivity.
  destruct (e'' <=? emax - prec); reflexivity.
Qed.

Lemma SFabs_binary_normalize_opp (m e : Z) :
  SFabs (binary_normalize prec emax (- m) e false)
  = SFabs (binary_normalize prec emax m e false).
Proof.
  destruct m as [|m|m]; cbn [Z.opp binary_normalize]; try reflexivity.
  - apply SFabs_binary_round.
  - symmetry. apply SFabs_binary_round.
Qed.

Lemma SFabs_binary_round_pos (m : positive) (e : Z) :
  SFabs (binary_round prec emax false m e) = binary_round prec emax false m e.
Proof.
  unfold binary_round, binary_round_aux.
  destruct (shl_align m e _) as [mz ez].
  destruct (shr_fexp prec emax (Z.pos mz) ez loc_Exact) as [mrs e'].
  destruct (shr_fexp prec emax _ e' loc_Exact) as [mrs' e''].
  destruct (shr_m mrs') as [|q|q]; try reflexivity.
  destruct (e'' <=? emax - prec); reflexivity.
Qed.

Lemma SFabs_binary_normalize (z e : Z) :
  SFabs (binary_normalize prec emax z e false)
  = binary_normalize prec emax (Z.abs z) e false.
Proof.
  destruct z as [|p|p]; cbn [Z.abs binary_normalize].
  - reflexivity.
  - apply SFabs_binary_round_pos.
  - rewrite SFabs_binary_round. apply SFabs_binary_round_pos.
Qed.

Lemma Prim2SF_dbl (z : Z) :
  0 <= z < 9223372036854775808 ->
  Prim2SF (dbl z) = binary_normalize prec emax z 0 false.
Proof.
  intros H. unfold dbl. rewrite of_uint63_spec. f_equal.
  rewrite Uint63.of_Z_spec. apply Z.mod_small. exact H.
Qed.

(** An integer below 2^53 is a binary64 number. *)
Lemma binary_round_integer (s : bool) (p : positive) :
  Z.pos p < 2 ^ 53 ->
  exists (m : positive) (e : Z),
    binary_round prec emax s p 0 = S754_finite s m e
    /\ 2 ^ 52 <= Z.pos m
    /\ Z.pos m * 2 ^ (e + 1074) = Z.pos p * 2 ^ 1074.
Proof.
  intros H. pose proof (digits_bounds p) as B.
  set (d := Z.pos (digits2_pos p)) in *.
  assert (1 <= d <= 53) as Hd.
  { split; [unfold d; lia|].
    destruct (Z_le_gt_dec d 53) as [|G]; [assumption|].
    assert (2 ^ 53 <= 2 ^ (d - 1)) by (apply pow2_le; lia). lia. }
  assert (rnd_exp p 0 = d - 53) as HE by (rewrite rnd_exp_eq; fold d; lia).
  assert (rnd_man p 0 = Z.pos p * 2 ^ (53 - d)) as Hq.
  { unfold rnd_man. rewrite HE.
    replace (Z.min 0 (d - 53)) with (d - 53) by lia.
    rewrite Z.sub_diag, rne_0. f_equal. f_equal. lia. }
  pose proof (pow2_pos (53 - d) ltac:(lia)) as Pp.
  assert (2 ^ 52 <= Z.pos p * 2 ^ (53 - d) < 2 ^ 53) as Hr.
  { assert (2 ^ 52 = 2 ^ (d - 1) * 2 ^ (53 - d)) as ->
      by (rewrite <- pow2_add by lia; f_equal; lia).
    assert (2 ^ 53 = 2 ^ d * 2 ^ (53 - d)) as ->
      by (rewrite <- pow2_add by lia; f_equal; lia).
    nia. }
  rewrite binary_round_spec, HE, Hq.
  destruct (Z.pos p * 2 ^ (53 - d)) as [|q|q] eqn:Eq; try lia.
  exists q, (d - 53).
  rewrite pack_small by lia.
  replace (d - 53 <=? 971) with true by (symmetry; apply Z.leb_le; lia).
  split; [reflexivity|]. split; [lia|].
  rewrite <- Eq, <- Z.mul_assoc, <- pow2_add by lia. do 2 f_equal. lia.
Qed.

Lemma dbl_number (z : Z) :
  0 < z < 2 ^ 53 ->
  exists (m : positive) (e : Z),
    Prim2SF (dbl z) = S754_finite false m e
    /\ bounded prec emax m e = true
    /\ 2 ^ 52 <= Z.pos m
    /\ key (S754_finite false m e) = z * 2 ^ 1074.
Proof.
  intros H. pose proof (Prim2SF_valid (dbl z)) as V.
  rewrite Prim2SF_dbl in * by (change (2 ^ 53) with 9007199254740992 in H; lia).
  destruct z as [|p|p]; try lia. cbn [binary_normalize] in *.
  destruct (binary_round_integer false p (proj2 H)) as (m & e & E & Hm & Hk).
  rewrite E in *. exists m, e. repeat split; assumption.
Qed.

Lemma abs_sub_dbl (a b : Z) :
  0 <= a < 2 ^ 53 -> 0 <= b < 2 ^ 53 ->
  abs (dbl b - dbl a) = dbl (Z.abs (b - a)).
Proof.
  intros Ha Hb. apply Prim2SF_inj.
  rewrite FloatAxioms.abs_spec, FloatAxioms.sub_spec.
  change (2 ^ 53) with 9007199254740992 in Ha, Hb.
  rewrite (Prim2SF_dbl (Z.abs (b - a))) by lia.
  rewrite <- SFabs_binary_normalize. f_equal.
  assert (forall z, 0 <= z < 9007199254740992 ->
            Prim2SF (dbl z) = S754_zero false /\ z = 0
            \/ exists m e, Prim2SF (dbl z) = S754_finite false m e
                           /\ bounded prec emax m e = true
                           /\ key (S754_finite false m e) = z * 2 ^ 1074) as Hz.
  { intros z Hz. destruct (Z.eq_dec z 0) as [->|Nz].
    - left. split; [|reflexivity]. rewrite Prim2SF_dbl by lia. reflexivity.
    - right. destruct (dbl_number z) as (m & e & E & V & _ & K);
        [change (2 ^ 53) with 9007199254740992; lia|].
      exists m, e. repeat split; assumption. }
  unfold SF64sub.
  destruct (Hz b Hb) as [[Eb Zb]|(mb & eb & Eb & Vb & Kb)];
    destruct (Hz a Ha) as [[Ea Za]|(ma & ea & Ea & Va & Ka)];
    rewrite Ea, Eb.
  - subst. reflexivity.
  - subst b. cbn [SFsub]. rewrite Z.sub_0_l.
    rewrite <- (binary_normalize_shift (- a) 0 1074) by lia.
    rewrite Z.mul_opp_l, <- Ka.
    change (0 - 1074) with (-1074).
    change (negb false) with true.
    rewrite <- (binary_normalize_key_canonical true ma ea Va).
    reflexivity.
  - subst a. cbn [SFsub]. rewrite Z.sub_0_r.
    rewrite <- (binary_normalize_shift b 0 1074) by lia.
    rewrite <- Kb. symmetry. apply binary_normalize_key_canonical. exact Vb.
  - rewrite SFsub_finite by assumption. rewrite Ka, Kb.
    rewrite <- Z.mul_sub_distr_r.
    rewrite <- (binary_normalize_shift (b - a) 0 1074) by lia.
    reflexivity.
Qed.

(** *** Sums and products grow with their operand *)

Lemma SFadd_key (x y : spec_float) :
  valid_binary x = true -> valid_binary y = true ->
  x <> S754_nan -> x <> S754_infinity true ->
  y <> S754_nan -> y <> S754_infinity true ->
  SFadd prec emax x y <> S754_nan
  /\ ((x = S754_infinity false \/ y = S754_infinity false) ->
      key (SFadd prec emax x y) = key_top)
  /\ (x <> S754_infinity false -> y <> S754_infinity false ->
      key (SFadd prec emax x y)
      = key (binary_normalize prec emax (key x + key y) (-1074) false)).
Proof.
  intros Vx Vy Nx Ix Ny Iy.
  destruct x as [sx|[|]| |sx mx ex]; try congruence;
    destruct y as [sy|[|]| |sy my ey]; try congruence;
    cbn [valid_binary] in *.
  - split; [destruct sx, sy; discriminate|]. split; [intros [H|H]; discriminate|].
    intros _ _. destruct sx, sy; reflexivity.
  - split; [discriminate|]. split; [reflexivity|]. congruence.
  - split; [discriminate|]. split; [intros [H|H]; discriminate|].
    intros _ _. cbn [SFadd key Z.add].
    change (if sy then - (Z.pos my * 2 ^ (ey + 1074)) else Z.pos my * 2 ^ (ey + 1074))
      with (key (S754_finite sy my ey)).
    rewrite binary_normalize_key_canonical by assumption. reflexivity.
  - split; [destruct sy; discriminate|]. split; [reflexivity|]. congruence.
  - split; [discriminate|]. split; [reflexivity|]. congruence.
  - split; [discriminate|]. split; [reflexivity|]. congruence.
  - split; [discriminate|]. split; [intros [H|H]; discriminate|].
    intros _ _. cbn [SFadd].
    replace (key (S754_finite sx mx ex) + key (S754_zero sy))
      with (key (S754_finite sx mx ex)) by (cbn [key]; lia).
    rewrite binary_normalize_key_canonical by assumption. reflexivity.
  - split; [discriminate|]. split; [reflexivity|]. congruence.
  - rewrite SFadd_finite by assumption.
    split; [apply binary_normalize_not_nan|].
    split; [intros [H|H]; discriminate|]. reflexivity.
Qed.

Lemma key_below_infinity (x : spec_float) :
  valid_binary x = true -> x <> S754_infinity false -> key x < key_top.
Proof.
  intros V N. pose proof key_top_pos.
  destruct x as [s|[|]| |s m e]; cbn [key]; try lia; try congruence.
  apply (key_finite_range s m e V).
Qed.

Lemma SFadd_mono (x1 x2 y : spec_float) :
  valid_binary x1 = true -> valid_binary x2 = true -> valid_binary y = true ->
  x1 <> S754_nan -> x1 <> S754_infinity true ->
  x2 <> S754_nan -> x2 <> S754_infinity true ->
  y <> S754_nan -> y <> S754_infinity true ->
  key x1 <= key x2 ->
  SFadd prec emax x1 y <> S754_nan
  /\ SFadd prec emax x2 y <> S754_nan
  /\ key (SFadd prec emax x1 y) <= key (SFadd prec emax x2 y).
Proof.
  intros V1 V2 Vy N1 I1 N2 I2 Ny Iy H.
  destruct (SFadd_key x1 y V1 Vy N1 I1 Ny Iy) as (A1 & B1 & C1).
  destruct (SFadd_key x2 y V2 Vy N2 I2 Ny Iy) as (A2 & B2 & C2).
  split; [exact A1|]. split; [exact A2|].
  assert (forall z, key (binary_normalize prec emax z (-1074) false) <= key_top)
    as Hcap.
  { intros z. destruct (binary_normalize_key_range z (-1074)) as [P N].
    pose proof key_top_pos.
    destruct (Z_le_gt_dec 0 z); [apply P; lia|].
    assert (key (binary_normalize prec emax z (-1074) false) <= 0)
      by (apply N; lia). lia. }
  assert (forall u v : spec_float, {u = v} + {u <> v}) as dec
    by (decide equality; try apply Bool.bool_dec; try apply Pos.eq_dec;
        apply Z.eq_dec).
  destruct (dec y (S754_infinity false)) as [Ey|Ey].
  { rewrite B1, B2 by (right; exact Ey). lia. }
  destruct (dec x2 (S754_infinity false)) as [E2|E2].
  { rewrite B2 by (left; exact E2).
    destruct (dec x1 (S754_infinity false)) as [E1|E1].
    - rewrite B1 by (left; exact E1). lia.
    - rewrite C1 by assumption. apply Hcap. }
  destruct (dec x1 (S754_infinity false)) as [E1|E1].
  { pose proof (key_below_infinity x2 V2 E2). subst x1. cbn [key] in H. lia. }
  rewrite C1, C2 by assumption.
  apply binary_normalize_mono. lia.
Qed.

(** Products of a positive integer with a number that is not below zero. *)
Lemma SFmul_mono (m1 : positive) (e1 : Z) (m2 : positive) (e2 : Z)
      (y : spec_float) :
  bounded prec emax m1 e1 = true -> 2 ^ 52 <= Z.pos m1 ->
  bounded prec emax m2 e2 = true -> 2 ^ 52 <= Z.pos m2 ->
  key (S754_finite false m1 e1) <= key (S754_finite false m2 e2) ->
  SFleb (S754_zero false) y = true ->
  let p1 := SFmul prec emax (S754_finite false m1 e1) y in
  let p2 := SFmul prec emax (S754_finite false m2 e2) y in
  p1 <> S754_nan /\ p1 <> S754_infinity true
  /\ p2 <> S754_nan /\ p2 <> S754_infinity true
  /\ key p1 <= key p2.
Proof.
  intros V1 N1 V2 N2 H Hy p1 p2. subst p1 p2.
  destruct y as [sy|[|]| |[|] my ey]; try discriminate Hy.
  - cbn [SFmul key]. repeat split; try discriminate; try lia.
  - cbn [SFmul key xorb]. repeat split; try discriminate; try lia.
  - rewrite !SFmul_finite by assumption.
    destruct (key_finite_range false m1 e1 V1) as [_ P1].
    destruct (key_finite_range false m2 e2 V2) as [_ P2].
    cbn [key] in *.
    assert (forall k, 0 < k ->
              binary_normalize prec emax (k * Z.pos my) (ey - 1074) false
              <> S754_infinity true) as Hinf.
    { intros k Hk. destruct (k * Z.pos my) as [|q|q] eqn:E; try lia.
      cbn [binary_normalize]. apply (binary_round_key false q). }
    split; [apply binary_normalize_not_nan|].
    split; [apply Hinf; exact P1|].
    split; [apply binary_normalize_not_nan|].
    split; [apply Hinf; exact P2|].
    apply binary_normalize_mono. nia.
Qed.

(** The cost of a seek grows with the distance. *)
Lemma seek_cost_mono (d1 d2 : Z) (per_track overhead : float) :
  0 < d1 <= d2 -> d2 < 2 ^ 53 ->
  (0 <=? per_track)%float = true ->
  (neg_infinity <? overhead)%float = true ->
  (dbl d1 * per_track + overhead <=? dbl d2 * per_track + overhead)%float = true.
Proof.
  intros Hd Hd2 Hp Ho.
  destruct (dbl_number d1 ltac:(lia)) as (m1 & e1 & E1 & V1 & N1 & K1).
  destruct (dbl_number d2 ltac:(lia)) as (m2 & e2 & E2 & V2 & N2 & K2).
  rewrite FloatAxioms.leb_spec in Hp.
  change (Prim2SF 0) with (S754_zero false) in Hp.
  rewrite FloatAxioms.ltb_spec in Ho.
  change (Prim2SF neg_infinity) with (S754_infinity true) in Ho.
  assert (Prim2SF overhead <> S754_nan /\ Prim2SF overhead <> S754_infinity true)
    as [No Io].
  { destruct (Prim2SF overhead) as [s|[|]| |s m e]; try discriminate Ho;
      split; discriminate. }
  pose proof (pow2_pos 1074 ltac:(lia)) as P1074.
  destruct (SFmul_mono m1 e1 m2 e2 (Prim2SF per_track) V1 N1 V2 N2
              ltac:(rewrite K1, K2; nia) Hp) as (A1 & B1 & A2 & B2 & Hk).
  rewrite <- E1 in A1, B1, Hk. rewrite <- E2 in A2, B2, Hk.
  change (SFmul prec emax) with SF64mul in A1, B1, A2, B2, Hk.
  rewrite <- !FloatAxioms.mul_spec in A1, B1, A2, B2.
  do 2 rewrite <- FloatAxioms.mul_spec in Hk.
  destruct (SFadd_mono _ _ (Prim2SF overhead)
              (Prim2SF_valid (dbl d1 * per_track))
              (Prim2SF_valid (dbl d2 * per_track))
              (Prim2SF_valid overhead) A1 B1 A2 B2 No Io Hk) as (C1 & C2 & Hs).
  change (SFadd prec emax) with SF64add in C1, C2, Hs.
  rewrite <- !FloatAxioms.add_spec in C1, C2.
  do 2 rewrite <- FloatAxioms.add_spec in Hs.
  rewrite FloatAxioms.leb_spec.
  apply SFleb_key; try apply Prim2SF_valid; assumption.
Qed.

(** ** Seek time (claim C8) *)

Lemma float_add_comm (x y : float) : (x + y = y + x)%float.
Proof.
  apply Prim2SF_inj. rewrite !FloatAxioms.add_spec.
  destruct (Prim2SF x) as [[|]|[|]| |sx mx ex];
    destruct (Prim2SF y) as [[|]|[|]| |sy my ey]; try reflexivity.
  unfold SF64add, SFadd.
  rewrite (Z.min_comm ey ex), Z.add_comm. reflexivity.
Qed.

Lemma float_mul_comm (x y : float) : (x * y = y * x)%float.
Proof.
  apply Prim2SF_inj. rewrite !FloatAxioms.mul_spec.
  destruct (Prim2SF x) as [[|]|[|]| |[|] mx ex];
    destruct (Prim2SF y) as [[|]|[|]| |[|] my ey]; try reflexivity;
    unfold SF64mul, SFmul;
    rewrite (Pos.mul_comm my mx), (Z.add_comm ey ex); reflexivity.
Qed.

(** C8, as the code has it.  Tracks are 32-bit numbers.  A seek between a
    track and itself takes no time.  Between two different tracks the
    difference of the track numbers, taken in binary64, is the distance
    [|to - from|] exactly, and the seek takes
    [seek_overhead + seek_per_track * |to - from|], the product and the sum
    rounded to binary64: it depends on the two tracks through their distance
    only.  When the cost per track is not below zero and the overhead is a
    number or plus infinity, a seek over a distance takes no less than a
    seek over a shorter one. *)
Theorem seek_time_formula (h : HDD)
        (from_track to_track from_track' to_track' : Z) :
  0 <= from_track < 4294967296 -> 0 <= to_track < 4294967296 ->
  0 <= from_track' < 4294967296 -> 0 <= to_track' < 4294967296 ->
  seek_time h from_track from_track = 0%float
  /\ (from_track <> to_track ->
      abs (dbl to_track - dbl from_track) = dbl (Z.abs (to_track - from_track))
      /\ seek_time h from_track to_track
         = (_seek_overhead h
            + _seek_per_track h * dbl (Z.abs (to_track - from_track)))%float)
  /\ (from_track <> to_track -> from_track' <> to_track' ->
      Z.abs (to_track - from_track) = Z.abs (to_track' - from_track') ->
      seek_time h from_track to_track = seek_time h from_track' to_track')
  /\ (from_track <> to_track ->
      Z.abs (to_track - from_track) <= Z.abs (to_track' - from_track') ->
      (0 <=? _seek_per_track h)%float = true ->
      (neg_infinity <? _seek_overhead h)%float = true ->
      (seek_time h from_track to_track
       <=? seek_time h from_track' to_track')%float = true).
Proof.
  intros Hf Ht Hf' Ht'.
  assert (forall a b, 0 <= a < 4294967296 -> 0 <= b < 4294967296 -> a <> b ->
            seek_time h a b
            = (dbl (Z.abs (b - a)) * _seek_per_track h + _seek_overhead h)%float)
    as Hform.
  { intros a b Ha Hb Hne. unfold seek_time.
    replace (a =? b) with false by (symmetry; apply Z.eqb_neq; exact Hne).
    rewrite abs_sub_dbl
      by (change (2 ^ 53) with 9007199254740992; lia).
    reflexivity. }
  split; [|split; [|split]].
  - unfold seek_time. rewrite Z.eqb_refl. reflexivity.
  - intros Hne. split.
    + apply abs_sub_dbl; change (2 ^ 53) with 9007199254740992; lia.
    + rewrite Hform by assumption.
      rewrite float_add_comm. f_equal. apply float_mul_comm.
  - intros Hne Hne' Hd. rewrite !Hform by assumption. rewrite Hd. reflexivity.
  - intros Hne Hd Hp Ho.
    assert (from_track' <> to_track') as Hne' by lia.
    rewrite !Hform by assumption.
    apply seek_cost_mono; try assumption;
      [|change (2 ^ 53) with 9007199254740992]; lia.
Qed.

Lemma seek_time_formula_witness :
  seek_time hdd_seek 0 0 = 0%float
  /\ (0 <> 1 ->
      abs (dbl 1 - dbl 0) = dbl (Z.abs (1 - 0))
      /\ seek_time hdd_seek 0 1
         = (_seek_overhead hdd_seek
            + _seek_per_track hdd_seek * dbl (Z.abs (1 - 0)))%float)
  /\ (0 <> 1 -> 2 <> 0 ->
      Z.abs (1 - 0) = Z.abs (0 - 2) ->
      seek_time hdd_seek 0 1 = seek_time hdd_seek 2 0)
  /\ (0 <> 1 ->
      Z.abs (1 - 0) <= Z.abs (0 - 2) ->
      (0 <=? _seek_per_track hdd_seek)%float = true ->
      (neg_infinity <? _seek_overhead hdd_seek)%float = true ->
      (seek_time hdd_seek 0 1 <=? seek_time hdd_seek 2 0)%float = true).
Proof.
  apply (seek_time_formula hdd_seek 0 1 2 0); lia.
Defined.

(** C8 as stated fails: the seek time need not grow with the distance.  In
    the scenario of section 8 the cost per track is 0 and seeks over one and
    over two tracks both take no time; and with a cost of 1 per track and
    an overhead of 1e20 both take 1e20, the track costs being lost in the
    rounding of the sum. *)
Lemma seek_time_not_increasing :
  _seek_per_track hdd8 = 0%float
  /\ seek_time hdd8 0 1 = 0%float
  /\ seek_time hdd8 0 2 = 0%float
  /\ seek_time (fst (HDD_new 1 3 10 20 6000 512 1e20 1 false)) 0 1 = 1e20%float
  /\ seek_time (fst (HDD_new 1 3 10 20 6000 512 1e20 1 false)) 0 2 = 1e20%float.
Proof. repeat apply conj; vm_compute; reflexivity. Qed.

(** ** The constructor (claim C4) *)



(** ** Defects the code shows (claims C5 and C6) *)

(** C5.  [decode] accepts every address up to and including
    [(uint64) (_capacity * 1e9)], which on the three-track variant of the
    scenario is 45 * 512, the capacity itself: the first byte past the
    device is decoded to a fourth track.  (In the scenario of section 8 the
    product is rounded to 15359.999999999998 and 30 * 512 is rejected.) *)
Lemma decode_accepts_capacity_address :
  total_sectors 1 3 10 (_sectors_diff hdd3) = 45
  /\ byte_limit hdd3 = 45 * 512
  /\ decode 4 hdd3 (45 * 512)
     = Done (Some {| surface := 0; track := 3; sector := 0 |})
  /\ byte_limit hdd8 = 30 * 512 - 1
  /\ decode 4 hdd8 (30 * 512) = Done None.
Proof. repeat apply conj; vm_compute; reflexivity. Qed.

(** C6.  In the scenario of section 8 (two tracks, 0 and 1), a read of 31
    sectors from address 0 walks past the last track and leaves the head on
    track 2. *)
Lemma read_past_end_leaves_device :
  exists (t : float) (h' : HDD),
    read 4 hdd8 0 0 (31 * 512) = Done (t, h')
    /\ _head_pos h' = 2
    /\ ~ (0 <= _head_pos h' < 2).
Proof.
  eexists. eexists. split; [vm_compute; reflexivity|].
  split; [reflexivity|]. cbn [_head_pos set_head_pos]. lia.
Qed.

(** * Further properties of the code *)

(** ** What [decode] accepts and what it answers *)

Lemma decode_track_index (h : HDD) (b : Z) :
  forall (fuel : nat) (t total t' total' : Z),
    0 <= t < 4294967296 ->
    decode_track fuel h b t total = Done (t', total') ->
    0 <= t' < 4294967296.
Proof.
  induction fuel as [|fuel IH]; intros t total t' total' Ht E; [discriminate|].
  cbn [decode_track] in E.
  destruct (u32 (u32 (total + track_sector h t * _surfaces h) - 1) >=? b).
  - inversion E; subst. exact Ht.
  - apply (IH _ _ _ _ (u32_range (t + 1)) E).
Qed.

(** One pass over the surfaces either stops on a surface of the device,
    the running total having reached the block, or visits them all. *)
Lemma decode_surfaces_result (surfaces b : Z) :
  forall (n : nat) (s total : Z) (flag : bool) (s' total' : Z) (flag' : bool),
    0 <= s ->
    s + Z.of_nat n = surfaces ->
    decode_surfaces n surfaces b s total flag = (s', total', flag') ->
    (flag' = false /\ 0 <= s' < surfaces /\ b <= total')
    \/ (flag' = flag /\ s' = surfaces).
Proof.
  induction n as [|n IH]; intros s total flag s' total' flag' Hs Hn E.
  - cbn [decode_surfaces] in E. inversion E; subst. right. split; [reflexivity|lia].
  - cbn [decode_surfaces] in E.
    replace (s <? surfaces) with true in E by (symmetry; apply Z.ltb_lt; lia).
    destruct (total >=? b) eqn:Eb.
    + inversion E; subst. left. apply Z.geb_le in Eb. repeat split; lia.
    + refine (IH _ _ _ _ _ _ _ _ E); lia.
Qed.

Lemma decode_slots_result (surfaces sectors b : Z) :
  1 <= surfaces ->
  sectors < 4294967296 ->
  forall (fuel : nat) (s k total : Z) (flag : bool) (s' k' : Z),
    0 <= s < surfaces ->
    0 <= k <= sectors ->
    (flag = true \/ b <= total) ->
    decode_slots fuel surfaces sectors b s k total flag = Done (s', k') ->
    0 <= s' < surfaces /\ 0 <= k' <= sectors.
Proof.
  intros HS Hsec.
  induction fuel as [|fuel IH]; intros s k total flag s' k' Hs Hk Hf E;
    [discriminate|].
  cbn [decode_slots] in E.
  destruct ((k <? sectors) && (total <? b)) eqn:Ec.
  - apply andb_prop in Ec. destruct Ec as [Ek Et].
    apply Z.ltb_lt in Ek. apply Z.ltb_lt in Et.
    assert (flag = true) as -> by (destruct Hf as [Hf|Hf]; [exact Hf|lia]).
    destruct (decode_surfaces (Z.to_nat surfaces) surfaces b 0 total true)
      as [[s1 total1] flag1] eqn:Es.
    assert (0 + Z.of_nat (Z.to_nat surfaces) = surfaces) as Hn by lia.
    destruct (decode_surfaces_result surfaces b _ _ _ _ _ _ _
                (Z.le_refl 0) Hn Es) as [(Hfl & Hs1 & Hb)|(Hfl & Hs1)];
      subst flag1.
    + apply (IH _ _ _ _ _ _ Hs1 Hk (or_intror Hb) E).
    + subst s1.
      replace (surfaces =? 0) with false in E
        by (symmetry; apply Z.eqb_neq; lia).
      rewrite Z_mod_same_full, u32_small in E by lia.
      refine (IH _ _ _ _ _ _ _ _ (or_introl eq_refl) E); lia.
  - inversion E; subst. split; assumption.
Qed.

(** X2.  On a device with one surface at least, whatever the address and
    the geometry (overflowing counts and addresses past the last track
    included), a position [decode] answers has a surface of the device, a
    track number of 32 bits, and a sector-slot that does not exceed the
    number of sectors the device computes for that track. *)
Theorem decode_position_bounds (fuel : nat) (h : HDD) (address : Z)
        (p : HDD_Position) :
  1 <= _surfaces h ->
  decode fuel h address = Done (Some p) ->
  0 <= surface p < _surfaces h
  /\ 0 <= track p < 4294967296
  /\ 0 <= sector p <= track_sector h (track p).
Proof.
  intros HS. unfold decode, decode_block.
  destruct ((address <? 0) || (address >? byte_limit h)); [discriminate|].
  destruct (_sector_size h =? 0); [discriminate|].
  destruct (decode_track fuel h _ 0 0) as [[t total]| |] eqn:Et;
    try discriminate.
  cbn [bind].
  destruct (decode_slots fuel _ _ _ 0 0 _ true) as [[s k]| |] eqn:Es;
    try discriminate.
  cbn [bind]. intros E. inversion E; subst p. cbn [surface track sector].
  pose proof (track_sector_range h t) as Hr.
  assert (0 <= 0 < _surfaces h) as Hs0 by lia.
  assert (0 <= 0 <= track_sector h t) as Hk0 by lia.
  destruct (decode_slots_result _ _ _ HS (proj2 Hr) _ _ _ _ _ _ _
              Hs0 Hk0 (or_introl eq_refl) Es) as [H1 H2].
  split; [exact H1|]. split; [|exact H2].
  assert (0 <= 0 < 4294967296) as Ht0 by lia.
  apply (decode_track_index h _ _ _ _ _ _ Ht0 Et).
Qed.

Lemma decode_position_bounds_witness :
  0 <= surface {| surface := 0; track := 3; sector := 0 |} < _surfaces hdd3
  /\ 0 <= track {| surface := 0; track := 3; sector := 0 |} < 4294967296
  /\ 0 <= sector {| surface := 0; track := 3; sector := 0 |}
     <= track_sector hdd3 (track {| surface := 0; track := 3; sector := 0 |}).
Proof.
  apply (decode_position_bounds 4 hdd3 (45 * 512)).
  - vm_compute. discriminate.
  - vm_compute. reflexivity.
Defined.

(** ** Seeks *)

Lemma float_abs_sub_comm (x y : float) : abs (x - y) = abs (y - x).
Proof.
  apply Prim2SF_inj. rewrite !FloatAxioms.abs_spec, !FloatAxioms.sub_spec.
  destruct (Prim2SF x) as [[|]|[|]| |sx mx ex];
    destruct (Prim2SF y) as [[|]|[|]| |sy my ey]; try reflexivity.
  unfold SF64sub, SFsub. rewrite (Z.min_comm ey ex).
  rewrite <- SFabs_binary_normalize_opp. f_equal. f_equal. lia.
Qed.

(** X3.  A seek costs the same in both directions: the time from track [a]
    to track [b] is the time from [b] to [a], bit for bit. *)
Theorem seek_time_symmetric (h : HDD) (a b : Z) :
  seek_time h a b = seek_time h b a.
Proof.
  unfold seek_time. rewrite (Z.eqb_sym b a).
  destruct (a =? b); [reflexivity|].
  rewrite float_abs_sub_comm. reflexivity.
Qed.

(** ** Requests that stay on the device *)

Section Walking.

Variable h : HDD.
Variable tracks : Z.

Hypothesis surfaces_pos : 1 <= _surfaces h.
Hypothesis tracks_range : 0 <= tracks < 4294967296.
Hypothesis sectors_pos : forall t, 0 <= t < tracks -> 1 <= track_sector h t.
Hypothesis capacity_fits : blocks_before h (Z.to_nat tracks) < 4294967296.

(** On a valid position [max_access] is the distance from the position's
    block to the first block of the next track. *)
Lemma max_access_to_next_track (p : HDD_Position) :
  valid_position h tracks p ->
  max_access h p
  = blocks_before h (S (Z.to_nat (track p))) - block_of h p.
Proof.
  intros Hv.
  destruct (block_of_range h tracks surfaces_pos tracks_range sectors_pos
              capacity_fits p Hv)
    as (Hlo & Hhi & Hb).
  destruct Hv as (Hs & Ht & Hk).
  assert (0 <= blocks_before h (Z.to_nat (track p))) as H0
    by (apply (blocks_before_nonneg h tracks); try assumption; lia).
  assert (blocks_before h (S (Z.to_nat (track p)))
          <= blocks_before h (Z.to_nat tracks)) as H1
    by (apply (blocks_before_le h tracks); try assumption; lia).
  destruct (max_access_remaining h p Hs Hk) as [E _].
  - cbn [blocks_before] in H1. rewrite Z2Nat.id in H1 by lia. lia.
  - rewrite E. unfold block_of. cbn [blocks_before].
    rewrite Z2Nat.id by lia. lia.
Qed.

(** A transfer of one sector at least that fits between its first position
    and the end of the device returns, and ends on the track of its last
    block. *)
Lemma read_time_loop_in_device :
  forall (fuel : nat) (p : HDD_Position) (sectors : Z) (time : float),
    valid_position h tracks p ->
    1 <= sectors ->
    block_of h p + sectors <= blocks_before h (Z.to_nat tracks) ->
    tracks - track p <= Z.of_nat fuel ->
    exists (time' : float) (m : nat),
      read_time_loop fuel h p sectors time = Done (time', Z.of_nat m)
      /\ Z.of_nat m < tracks
      /\ blocks_before h m <= block_of h p + sectors - 1 < blocks_before h (S m).
Proof.
  induction fuel as [|fuel IH]; intros p sectors time Hv Hs Hfit Hfuel.
  - destruct Hv as (_ & Ht & _). lia.
  - pose proof (max_access_to_next_track p Hv) as Ek.
    destruct (block_of_range h tracks surfaces_pos tracks_range sectors_pos
              capacity_fits p Hv)
      as (Hlo & Hhi & Hb).
    pose proof Hv as (Hsf & Ht & Hk).
    destruct (Z_le_gt_dec sectors (max_access h p)) as [Hle|Hgt].
    + rewrite read_time_loop_last by lia.
      exists (charge (Z.to_nat sectors)
                (sector_time h (track_sector h (track p))) time),
             (Z.to_nat (track p)).
      rewrite Z2Nat.id by lia. split; [reflexivity|]. split; lia.
    + rewrite read_time_loop_cross by lia.
      assert (Z.of_nat (S (Z.to_nat (track p))) < tracks) as Hnext.
      { destruct (Z_lt_ge_dec (Z.of_nat (S (Z.to_nat (track p)))) tracks);
          [assumption|].
        assert (S (Z.to_nat (track p)) = Z.to_nat tracks) as Heq by lia.
        rewrite Heq in Ek. lia. }
      assert (next_track p = track_start (Z.of_nat (S (Z.to_nat (track p)))))
        as Eq.
      { unfold next_track, track_start. rewrite u32_small by lia.
        f_equal. lia. }
      assert (valid_position h tracks (next_track p)) as Hv'.
      { rewrite Eq. unfold valid_position; cbn [surface track sector track_start].
        pose proof (sectors_pos (Z.of_nat (S (Z.to_nat (track p))))). lia. }
      assert (block_of h (next_track p)
              = blocks_before h (S (Z.to_nat (track p)))) as Eb.
      { rewrite Eq. unfold block_of; cbn [surface track sector track_start].
        rewrite Nat2Z.id. lia. }
      destruct (IH (next_track p) (sectors - max_access h p)
                  (charge (Z.to_nat (max_access h p))
                     (sector_time h (track_sector h (track p))) time
                   + crossing_time h p)%float Hv')
        as (time' & m & E & Hm & Hr).
      * lia.
      * lia.
      * rewrite Eq. cbn [track track_start]. lia.
      * exists time', m. split; [exact E|]. split; [exact Hm|]. lia.
Qed.

End Walking.

(** X4.  On a device with one surface at least, every track of which
    holds one sector at least and whose blocks are counted in 32 bits, take
    a request of [n = (size / sector_size) mod 2^32 >= 1] sectors that
    starts at block [b] and ends inside the device, the first byte of its
    last block being accepted by [decode].  With more fuel than the device
    has blocks, [read] and [write] serve it with the same result and leave
    the head on the track [decode] gives to the last block of the request,
    a track of the device. *)
Theorem request_ends_on_track_of_last_block
        (h : HDD) (tracks b size : Z) (ts : float) (fuel : nat) :
  let n := u32 (size / _sector_size h) in
  1 <= _surfaces h ->
  0 <= tracks < 4294967296 ->
  1 <= _sector_size h ->
  (forall t, 0 <= t < tracks -> 1 <= track_sector h t) ->
  blocks_before h (Z.to_nat tracks) < 4294967296 ->
  0 <= b -> 1 <= n ->
  b + n <= blocks_before h (Z.to_nat tracks) ->
  (b + n - 1) * _sector_size h <= byte_limit h ->
  blocks_before h (Z.to_nat tracks) < Z.of_nat fuel ->
  exists (ts' : float) (h' : HDD) (q : HDD_Position),
    read fuel h ts (b * _sector_size h) size = Done (ts', h')
    /\ write fuel h ts (b * _sector_size h) size = Done (ts', h')
    /\ decode fuel h ((b + n - 1) * _sector_size h) = Done (Some q)
    /\ _head_pos h' = track q
    /\ 0 <= _head_pos h' < tracks.
Proof.
  intros n HS Ht Hss Hpos Hfit Hb Hn Hend Hlim Hfuel.
  destruct (decode_block_enumerates h tracks HS Ht Hpos Hfit b fuel)
    as (p & Ep & Hv & Hr); [lia|lia|].
  assert (decode fuel h (b * _sector_size h) = Done (Some p)) as Ed.
  { rewrite decode_block_address, Ep; [reflexivity|lia|lia|nia]. }
  pose proof (blocks_before_tracks h tracks HS Ht Hpos (Z.to_nat tracks)) as Htr.
  destruct (read_time_loop_in_device h tracks HS Ht Hpos Hfit fuel p n 0%float Hv)
    as (time & m & Ew & Hm & Hlast); [lia|lia|destruct Hv as (_ & Hv & _); lia|].
  destruct (decode_block_spec h tracks HS Ht Hpos Hfit (b + n - 1) fuel)
    as (m' & Hm' & Hlast' & Eq); [lia|lia|].
  assert (m = m') as <-.
  { apply (blocks_before_unique h tracks HS Ht Hpos _ _ (b + n - 1));
      try assumption; lia. }
  exists (ts + (seek_time h (_head_pos h) (track p) + wait_time h + time))%float,
         (set_head_pos (set_target_pos h p) (Z.of_nat m)).
  eexists.
  split; [|split; [|split; [|split]]].
  - apply (request_served fuel h ts _ size p time _ Ed Ew).
  - apply (request_served fuel h ts _ size p time _ Ed Ew).
  - rewrite decode_block_address, Eq; [reflexivity|lia|lia|lia].
  - reflexivity.
  - cbn [_head_pos set_head_pos]. lia.
Qed.

Lemma request_ends_on_track_of_last_block_witness :
  exists (ts' : float) (h' : HDD) (q : HDD_Position),
    read 31 hdd8 0 (5 * _sector_size hdd8) (10 * 512) = Done (ts', h')
    /\ write 31 hdd8 0 (5 * _sector_size hdd8) (10 * 512) = Done (ts', h')
    /\ decode 31 hdd8 ((5 + u32 (10 * 512 / _sector_size hdd8) - 1)
                       * _sector_size hdd8) = Done (Some q)
    /\ _head_pos h' = track q
    /\ 0 <= _head_pos h' < 2.
Proof.
  apply (request_ends_on_track_of_last_block hdd8 2 5 (10 * 512) 0 31).
  - vm_compute. discriminate.
  - lia.
  - vm_compute. discriminate.
  - intros t Ht. assert (t = 0 \/ t = 1) as [->| ->] by lia;
      vm_compute; discriminate.
  - vm_compute. reflexivity.
  - lia.
  - vm_compute. discriminate.
  - vm_compute. discriminate.
  - vm_compute. discriminate.
  - vm_compute. reflexivity.
Defined.

(** ** Requests and the state of the device *)

Lemma decode_track_set_head (h : HDD) (t : Z) (b : Z) :
  forall (fuel : nat) (ti total : Z),
    decode_track fuel (set_head_pos h t) b ti total
    = decode_track fuel h b ti total.
Proof.
  induction fuel as [|fuel IH]; intros ti total; [reflexivity|].
  cbn [decode_track].
  change (track_sector (set_head_pos h t)) with (track_sector h).
  change (_surfaces (set_head_pos h t)) with (_surfaces h).
  destruct (_ >=? b); [reflexivity|apply IH].
Qed.

Lemma decode_track_set_target (h : HDD) (q : HDD_Position) (b : Z) :
  forall (fuel : nat) (ti total : Z),
    decode_track fuel (set_target_pos h q) b ti total
    = decode_track fuel h b ti total.
Proof.
  induction fuel as [|fuel IH]; intros ti total; [reflexivity|].
  cbn [decode_track].
  change (track_sector (set_target_pos h q)) with (track_sector h).
  change (_surfaces (set_target_pos h q)) with (_surfaces h).
  destruct (_ >=? b); [reflexivity|apply IH].
Qed.

Lemma decode_set_head (fuel : nat) (h : HDD) (t address : Z) :
  decode fuel (set_head_pos h t) address = decode fuel h address.
Proof.
  unfold decode, decode_block. rewrite decode_track_set_head. reflexivity.
Qed.

Lemma decode_set_target (fuel : nat) (h : HDD) (q : HDD_Position) (address : Z) :
  decode fuel (set_target_pos h q) address = decode fuel h address.
Proof.
  unfold decode, decode_block. rewrite decode_track_set_target. reflexivity.
Qed.

Lemma read_time_loop_set_head (t : Z) (h : HDD) :
  forall (fuel : nat) (p : HDD_Position) (sectors : Z) (time : float),
    read_time_loop fuel (set_head_pos h t) p sectors time
    = read_time_loop fuel h p sectors time.
Proof.
  induction fuel as [|fuel IH]; intros p sectors time; [reflexivity|].
  cbn [read_time_loop].
  change (track_sector (set_head_pos h t)) with (track_sector h).
  change (max_access (set_head_pos h t)) with (max_access h).
  change (sector_time (set_head_pos h t)) with (sector_time h).
  change (seek_time (set_head_pos h t)) with (seek_time h).
  change (wait_time (set_head_pos h t)) with (wait_time h).
  destruct (read_sectors _ _ _ _ _ _) as [s t'].
  destruct (s <=? 0); [reflexivity|]. apply IH.
Qed.

(** What a request can do to the device: nothing, or store the decoded
    position and a head track. *)
Lemma read_changes (fuel : nat) (h : HDD) (ts : float) (address size : Z)
      (ts' : float) (h' : HDD) :
  read fuel h ts address size = Done (ts', h') ->
  h' = h \/ exists (p : HDD_Position) (t : Z),
              h' = set_head_pos (set_target_pos h p) t.
Proof.
  unfold read. destruct (_sector_size h =? 0); [discriminate|].
  destruct (decode fuel h address) as [[p|]| |]; cbn [bind];
    [|intros E; inversion E; left; reflexivity|discriminate|discriminate].
  unfold read_time.
  destruct (read_time_loop fuel _ _ _ 0) as [[time t]| |]; cbn [bind];
    try discriminate.
  intros E. inversion E. right. exists p, t. reflexivity.
Qed.

(** X5.  A request changes the head track and the stored position and
    nothing else: after any [read] or [write] the device has the surfaces,
    speed, sector size, seek costs, sector counts and byte limit it had, and
    [decode] and the seek, wait and transfer times are what they were before
    the request. *)
Theorem request_keeps_geometry (fuel : nat) (h : HDD) (ts : float)
        (address size : Z) (ts' : float) (h' : HDD) :
  read fuel h ts address size = Done (ts', h')
  \/ write fuel h ts address size = Done (ts', h') ->
  (_surfaces h' = _surfaces h /\ _rpm h' = _rpm h
   /\ _sector_size h' = _sector_size h
   /\ _seek_overhead h' = _seek_overhead h
   /\ _seek_per_track h' = _seek_per_track h
   /\ _sectors_innermost_track h' = _sectors_innermost_track h
   /\ _sectors_diff h' = _sectors_diff h /\ _capacity h' = _capacity h)
  /\ (forall t, track_sector h' t = track_sector h t)
  /\ byte_limit h' = byte_limit h
  /\ (forall fuel' a, decode fuel' h' a = decode fuel' h a)
  /\ (forall a b, seek_time h' a b = seek_time h a b)
  /\ wait_time h' = wait_time h
  /\ (forall fuel' p n time,
         read_time_loop fuel' h' p n time = read_time_loop fuel' h p n time).
Proof.
  intros E.
  assert (read fuel h ts address size = Done (ts', h')) as Er
    by (destruct E as [E|E]; exact E).
  destruct (read_changes _ _ _ _ _ _ _ Er) as [->|(p & t & ->)].
  - repeat split; reflexivity.
  - repeat apply conj; try reflexivity.
    + intros fuel' a. rewrite decode_set_head, decode_set_target. reflexivity.
    + intros fuel' q n time.
      rewrite read_time_loop_set_head, read_time_loop_set_target. reflexivity.
Qed.

Lemma request_keeps_geometry_witness :
  byte_limit
    (set_head_pos
       (set_target_pos hdd8 {| surface := 0; track := 0; sector := 0 |}) 2)
  = byte_limit hdd8
  /\ wait_time
       (set_head_pos
          (set_target_pos hdd8 {| surface := 0; track := 0; sector := 0 |}) 2)
     = wait_time hdd8.
Proof.
  destruct (request_keeps_geometry 4 hdd8 0 0 (31 * 512)
              0.035333333333333349%float
              (set_head_pos
                 (set_target_pos hdd8
                    {| surface := 0; track := 0; sector := 0 |}) 2))
    as (_ & _ & Hl & _ & _ & Hw & _).
  - left. vm_compute. reflexivity.
  - split; [exact Hl|exact Hw].
Defined.

(** X6.  When [decode] accepts the address and the request counts no more
    sectors than are left on the decoded track, [read] and [write] charge
    the seek from the head to that track, one wait and one sector time per
    sector, and leave the head on that track; a request of fewer bytes than
    a sector transfers nothing, and still pays the seek and the wait and
    moves the head. *)
Theorem request_within_track (fuel : nat) (h : HDD) (ts : float)
        (address size : Z) (p : HDD_Position) :
  let n := u32 (size / _sector_size h) in
  let served (time : float) :=
    Done ((ts + (seek_time h (_head_pos h) (track p) + wait_time h + time))%float,
          set_head_pos (set_target_pos h p) (track p)) in
  decode fuel h address = Done (Some p) ->
  n <= max_access h p ->
  read fuel h ts address size
  = served (charge (Z.to_nat n) (sector_time h (track_sector h (track p))) 0)
  /\ write fuel h ts address size
     = served (charge (Z.to_nat n) (sector_time h (track_sector h (track p))) 0)
  /\ (0 <= size < _sector_size h ->
      read fuel h ts address size = served 0%float).
Proof.
  intros n served Hd Hn.
  pose proof (u32_range (size / _sector_size h)) as Hr. fold n in Hr.
  destruct fuel as [|fuel].
  { unfold decode in Hd.
    destruct ((address <? 0) || (address >? byte_limit h)); [discriminate|].
    destruct (_sector_size h =? 0); discriminate. }
  assert (read (S fuel) h ts address size
          = served (charge (Z.to_nat n)
                      (sector_time h (track_sector h (track p))) 0)) as Er.
  { unfold served.
    apply (request_served (S fuel) h ts address size p _ (track p) Hd).
    fold n. apply read_time_loop_last. lia. }
  split; [exact Er|]. split; [exact Er|].
  intros Hsize. rewrite Er.
  assert (n = 0) as -> by (unfold n; rewrite Z.div_small by lia; reflexivity).
  reflexivity.
Qed.

Lemma request_within_track_witness :
  read 2 hdd8 0 0 100
  = Done ((0 + (seek_time hdd8 (_head_pos hdd8) 0 + wait_time hdd8 + 0))%float,
          set_head_pos
            (set_target_pos hdd8 {| surface := 0; track := 0; sector := 0 |}) 0).
Proof.
  destruct (request_within_track 2 hdd8 0 0 100
              {| surface := 0; track := 0; sector := 0 |}) as (_ & _ & H).
  - vm_compute. reflexivity.
  - vm_compute. discriminate.
  - apply H. vm_compute. split; [discriminate|reflexivity].
Defined.

(** X7.  A request that stays on its track, made a second time, seeks
    nothing: the second [read] costs one wait and the sector times, and
    leaves the device as the first one left it. *)
Theorem repeated_request_seeks_nothing (fuel : nat) (h : HDD) (ts ts2 : float)
        (address size : Z) (p : HDD_Position) :
  let n := u32 (size / _sector_size h) in
  decode fuel h address = Done (Some p) ->
  n <= max_access h p ->
  exists (ts1 : float) (h1 : HDD),
    read fuel h ts address size = Done (ts1, h1)
    /\ read fuel h1 ts2 address size
       = Done ((ts2 + (0 + wait_time h
                       + charge (Z.to_nat n)
                           (sector_time h (track_sector h (track p))) 0))%float,
               h1).
Proof.
  intros n Hd Hn.
  pose proof (u32_range (size / _sector_size h)) as Hr. fold n in Hr.
  set (h1 := set_head_pos (set_target_pos h p) (track p)).
  destruct fuel as [|fuel].
  { unfold decode in Hd.
    destruct ((address <? 0) || (address >? byte_limit h)); [discriminate|].
    destruct (_sector_size h =? 0); discriminate. }
  eexists. exists h1. split.
  - apply (request_served (S fuel) h ts address size p
             (charge (Z.to_nat n)
                (sector_time h (track_sector h (track p))) 0)
             (track p) Hd).
    fold n. apply read_time_loop_last. lia.
  - assert (decode (S fuel) h1 address = Done (Some p)) as Hd1
      by (unfold h1; rewrite decode_set_head, decode_set_target; exact Hd).
    destruct (request_served (S fuel) h1 ts2 address size p
                (charge (Z.to_nat n)
                   (sector_time h (track_sector h (track p))) 0)
                (track p) Hd1) as [Er _].
    + change (_sector_size h1) with (_sector_size h). fold n. unfold h1.
      rewrite read_time_loop_set_head, read_time_loop_set_target.
      apply read_time_loop_last. lia.
    + rewrite Er. unfold seek_time.
      change (_head_pos h1) with (track p). rewrite Z.eqb_refl.
      reflexivity.
Qed.

Lemma repeated_request_seeks_nothing_witness :
  exists (ts1 : float) (h1 : HDD),
    read 12 hdd3 0 (10 * 512) (3 * 512) = Done (ts1, h1)
    /\ read 12 h1 1 (10 * 512) (3 * 512)
       = Done ((1 + (0 + wait_time hdd3
                     + charge (Z.to_nat (u32 (3 * 512 / _sector_size hdd3)))
                         (sector_time hdd3
                            (track_sector hdd3
                               (track {| surface := 0; track := 1;
                                         sector := 0 |}))) 0))%float,
               h1).
Proof.
  apply (repeated_request_seeks_nothing 12 hdd3 0 1 (10 * 512) (3 * 512)
           {| surface := 0; track := 1; sector := 0 |}).
  - vm_compute. reflexivity.
  - vm_compute. discriminate.
Defined.

(** ** The address one past the device *)

(** X8.  On a device of [tracks] tracks with one surface at least, whose
    tracks [0 .. tracks] hold one sector at least each and are counted in
    32 bits, if the byte limit reaches the capacity in bytes (the test of
    [decode] being [address > limit]), the first address past the device
    is accepted and decoded to surface 0, sector-slot 0 of track number
    [tracks], which is no position of the device. *)
Theorem decode_first_address_past_end (h : HDD) (tracks : Z) (fuel : nat) :
  let capacity := blocks_before h (Z.to_nat tracks) in
  1 <= _surfaces h ->
  0 <= tracks < 4294967295 ->
  1 <= _sector_size h ->
  (forall t, 0 <= t <= tracks -> 1 <= track_sector h t) ->
  blocks_before h (S (Z.to_nat tracks)) < 4294967296 ->
  capacity * _sector_size h <= byte_limit h ->
  blocks_before h (S (Z.to_nat tracks)) < Z.of_nat fuel ->
  decode fuel h (capacity * _sector_size h)
  = Done (Some {| surface := 0; track := tracks; sector := 0 |})
  /\ ~ valid_position h tracks {| surface := 0; track := tracks; sector := 0 |}.
Proof.
  intros capacity HS Ht Hss Hpos Hfit Hlim Hfuel.
  assert (Z.to_nat (tracks + 1) = S (Z.to_nat tracks)) as En by lia.
  assert (0 <= tracks + 1 < 4294967296) as Ht' by lia.
  assert (forall t, 0 <= t < tracks + 1 -> 1 <= track_sector h t) as Hpos'
    by (intros t Hrange; apply Hpos; lia).
  assert (blocks_before h (Z.to_nat (tracks + 1)) < 4294967296) as Hfit'
    by (rewrite En; exact Hfit).
  assert (blocks_before h (Z.to_nat tracks)
          < blocks_before h (S (Z.to_nat tracks))) as Hstep
    by (apply (blocks_before_step h (tracks + 1)); try assumption; lia).
  assert (0 <= blocks_before h (Z.to_nat tracks)) as H0
    by (apply (blocks_before_nonneg h (tracks + 1)); try assumption; lia).
  fold capacity in Hstep, H0.
  destruct (decode_block_spec h (tracks + 1) HS Ht' Hpos' Hfit' capacity fuel)
    as (m & Hm & Hbm & E); [rewrite En; lia|rewrite En; lia|].
  assert (m = Z.to_nat tracks) as ->.
  { apply (blocks_before_unique h (tracks + 1) HS Ht' Hpos' _ _ capacity);
      try assumption; try lia; try (fold capacity; lia). }
  split.
  - rewrite decode_block_address, E; [|lia|lia|lia]. cbn [bind].
    fold capacity. rewrite Z.sub_diag, Zmod_0_l, Zdiv_0_l, Z2Nat.id by lia.
    reflexivity.
  - unfold valid_position; cbn [surface track sector]. lia.
Qed.

Lemma decode_first_address_past_end_witness :
  decode 71 hdd3 (blocks_before hdd3 (Z.to_nat 3) * _sector_size hdd3)
  = Done (Some {| surface := 0; track := 3; sector := 0 |})
  /\ ~ valid_position hdd3 3 {| surface := 0; track := 3; sector := 0 |}.
Proof.
  apply (decode_first_address_past_end hdd3 3 71).
  - vm_compute. discriminate.
  - lia.
  - vm_compute. discriminate.
  - intros t Ht.
    assert (t = 0 \/ t = 1 \/ t = 2 \/ t = 3) as [->|[->|[->| ->]]] by lia;
      vm_compute; discriminate.
  - vm_compute. reflexivity.
  - vm_compute. discriminate.
  - vm_compute. reflexivity.
Defined.

(** ** A device that does not turn *)

Lemma not_finite_add (x y : float) :
  not_finite x = true \/ not_finite y = true -> not_finite (x + y) = true.
Proof.
  unfold not_finite. rewrite FloatAxioms.add_spec.
  destruct (Prim2SF x) as [[|]|[|]| |sx mx ex];
    destruct (Prim2SF y) as [[|]|[|]| |sy my ey];
    intros [H|H]; try discriminate H; reflexivity.
Qed.

(** X9.  Nothing keeps the speed from being 0, and then the wait is
    [1 / 2 * (1 / 0) * 60], an infinity: every request [decode] accepts is
    answered, by [read] and by [write], with a timestamp that is an
    infinity or not a number, whatever the timestamp given. *)
Theorem stopped_disk_never_answers (fuel : nat) (h : HDD) (ts : float)
        (address size : Z) (p : HDD_Position) (ts' : float) (h' : HDD) :
  _rpm h = 0 ->
  decode fuel h address = Done (Some p) ->
  read fuel h ts address size = Done (ts', h')
  \/ write fuel h ts address size = Done (ts', h') ->
  wait_time h = infinity /\ not_finite ts' = true.
Proof.
  intros Hrpm Hd E.
  assert (wait_time h = infinity) as Hw
    by (unfold wait_time; rewrite Hrpm; vm_compute; reflexivity).
  split; [exact Hw|].
  assert (read fuel h ts address size = Done (ts', h')) as Er
    by (destruct E as [E|E]; exact E).
  unfold read in Er. rewrite (sector_size_eqb _ _ _ _ Hd), Hd in Er.
  cbn [bind] in Er.
  destruct (read_time fuel (set_target_pos h p) _) as [[time h1]| |];
    try discriminate.
  cbn [bind] in Er. inversion Er; subst.
  change (wait_time (set_target_pos h p)) with (wait_time h). rewrite Hw.
  apply not_finite_add. right.
  apply not_finite_add. left.
  apply not_finite_add. right. reflexivity.
Qed.

Lemma stopped_disk_never_answers_witness :
  wait_time (fst (HDD_new 1 2 10 20 0 512 0 0 false)) = infinity
  /\ not_finite infinity = true.
Proof.
  apply (stopped_disk_never_answers 2 (fst (HDD_new 1 2 10 20 0 512 0 0 false))
           0 0 512 {| surface := 0; track := 0; sector := 0 |} infinity
           (set_head_pos
              (set_target_pos (fst (HDD_new 1 2 10 20 0 512 0 0 false))
                 {| surface := 0; track := 0; sector := 0 |}) 0)).
  - reflexivity.
  - vm_compute. reflexivity.
  - left. vm_compute. reflexivity.
Defined.

(** ** The walk goes forward *)

(** X10.  Whatever the geometry, a transfer that returns within [fuel]
    passes, the 32-bit track counter not wrapping in that many, ends on the
    track it started on or a later one, fewer than [fuel] tracks further:
    [read_time] never moves the head back. *)
Theorem transfer_never_goes_back (h : HDD) :
  forall (fuel : nat) (p : HDD_Position) (sectors : Z) (time time' : float)
         (t : Z),
    0 <= track p ->
    track p + Z.of_nat fuel <= 4294967296 ->
    read_time_loop fuel h p sectors time = Done (time', t) ->
    track p <= t < track p + Z.of_nat fuel.
Proof.
  induction fuel as [|fuel IH]; intros p sectors time time' t Hp Hfuel E;
    [discriminate|].
  cbn [read_time_loop] in E.
  destruct (read_sectors _ _ _ _ _ _) as [s tm].
  destruct (s <=? 0).
  - inversion E; subst. lia.
  - destruct fuel as [|fuel]; [discriminate|].
    assert (u32 (track p + 1) = track p + 1) as Eu by (apply u32_small; lia).
    apply IH in E; cbn [track] in *; rewrite Eu in *; lia.
Qed.

Lemma transfer_never_goes_back_witness :
  track {| surface := 0; track := 0; sector := 0 |} <= 2
  < track {| surface := 0; track := 0; sector := 0 |} + Z.of_nat 4.
Proof.
  apply (transfer_never_goes_back hdd8 4
           {| surface := 0; track := 0; sector := 0 |} 31 0
           0.030333333333333348%float 2).
  - cbn. lia.
  - cbn. lia.
  - vm_compute. reflexivity.
Defined.
